(** * directional::parameterize — a shallow embedding and its properties

    The development follows [include/directional/parameterize.h].  The routine
    is a straight-line numerical program over Eigen matrices: a triple loop
    fills two triplet lists and the vector [gamma], sparse products build the
    energy matrix and the right-hand side, a direct solver is called, and the
    solution is projected back to corners.

    Modelling choices, all visible in the definitions below:
    - scalars ([double]) are an abstract type with its operations and no laws
      (class [Scalar]); general theorems hold for every such type, concrete
      evaluations are done at [Z] on integer-valued data, where every
      intermediate value is a small integer;
    - a matrix is its dimensions and its coefficient function; an Eigen
      operation whose size or index precondition fails ([eigen_assert]) is
      [AssertFail] in the monad [checked];
    - index arithmetic is done in [nat] (no [int] overflow);
    - the sparse LU solver is outside the repository: it is a pair of section
      variables, and the few facts used about it are stated as hypotheses. *)

From Stdlib Require Import List Arith ZArith Lia String Bool Ring.
Import ListNotations.

Set Implicit Arguments.

(* ================================================================== *)
(** * The Eigen fragment used by the routine *)
(* ================================================================== *)
Module Eigen.

(** The scalar type of the matrices: its constants and operations. *)
Class Scalar (R : Type) : Type := {
  s_zero : R;
  s_one : R;
  s_add : R -> R -> R;
  s_sub : R -> R -> R;
  s_mul : R -> R -> R;
  s_opp : R -> R;
  s_is_zero : R -> bool
}.

#[export] Instance Scalar_Z : Scalar Z := {
  s_zero := 0%Z;
  s_one := 1%Z;
  s_add := Z.add;
  s_sub := Z.sub;
  s_mul := Z.mul;
  s_opp := Z.opp;
  s_is_zero := fun z => Z.eqb z 0
}.

(** Scalars whose operations are exact: the laws of a commutative ring. *)
Definition exact_arithmetic {R : Type} (SR : Scalar R) : Prop :=
  ring_theory s_zero s_one s_add s_mul s_sub s_opp (@eq R).

(** Computations that may stop on a failed [eigen_assert]. *)
Inductive checked (A : Type) : Type :=
| Ok (a : A)
| AssertFail.
Arguments Ok {A} a.
Arguments AssertFail {A}.

Definition bind {A B : Type} (m : checked A) (f : A -> checked B) : checked B :=
  match m with
  | Ok a => f a
  | AssertFail => AssertFail
  end.

Notation "x <- m ;; k" := (bind m (fun x => k))
  (at level 61, m at next level, right associativity).

Definition eigen_assert (c : bool) : checked unit :=
  if c then Ok tt else AssertFail.

Definition is_ok {A : Type} (m : checked A) : bool :=
  match m with
  | Ok _ => true
  | AssertFail => false
  end.

Definition value_or {A : Type} (d : A) (m : checked A) : A :=
  match m with
  | Ok a => a
  | AssertFail => d
  end.

(** Two computations stop together or end in related results. *)
Definition both_or_neither {A B : Type} (Rel : A -> B -> Prop)
           (a : checked A) (b : checked B) : Prop :=
  match a, b with
  | Ok x, Ok y => Rel x y
  | AssertFail, AssertFail => True
  | _, _ => False
  end.

(** [for (x : l) s = body(x, s)] with early exit on a failed assertion. *)
Fixpoint for_each {X S : Type} (l : list X) (body : X -> S -> checked S) (s : S)
  : checked S :=
  match l with
  | [] => Ok s
  | x :: l' => s' <- body x s ;; for_each l' body s'
  end.

Record Matrix (T : Type) : Type := mkMatrix {
  rows : nat;
  cols : nat;
  coeff : nat -> nat -> T
}.

Record Vector (T : Type) : Type := mkVector {
  size : nat;
  vcoeff : nat -> T
}.

(** [Eigen::Triplet<double>] *)
Record Triplet (T : Type) : Type := mkTriplet {
  t_row : nat;
  t_col : nat;
  t_value : T
}.

Section Ops.
Context {R : Type} {SR : Scalar R}.

(** [M(i,j)] *)
Definition at2 {T : Type} (M : Matrix T) (i j : nat) : checked T :=
  _ <- eigen_assert ((i <? rows M) && (j <? cols M)) ;;
  Ok (coeff M i j).

(** [v(i)] for reading *)
Definition vat {T : Type} (v : Vector T) (z : Z) : checked T :=
  _ <- eigen_assert ((0 <=? z)%Z && (z <? Z.of_nat (size v))%Z) ;;
  Ok (vcoeff v (Z.to_nat z)).

(** [v(i) = x] *)
Definition vset {T : Type} (v : Vector T) (i : nat) (x : T) : checked (Vector T) :=
  _ <- eigen_assert (i <? size v) ;;
  Ok (mkVector (size v) (fun r => if r =? i then x else vcoeff v r)).

(** [M.row(z)] assigned, transposed, to a [Vector3d]. *)
Definition row3 (M : Matrix R) (z : Z) : checked (R * R * R) :=
  _ <- eigen_assert ((0 <=? z)%Z && (z <? Z.of_nat (rows M))%Z) ;;
  _ <- eigen_assert (cols M =? 3) ;;
  Ok (coeff M (Z.to_nat z) 0, coeff M (Z.to_nat z) 1, coeff M (Z.to_nat z) 2).

(** [M.block(i, c, 1, 3)] *)
Definition block13 (M : Matrix R) (i c : nat) : checked (R * R * R) :=
  _ <- eigen_assert ((i + 1 <=? rows M) && (c + 3 <=? cols M)) ;;
  Ok (coeff M i c, coeff M i (c + 1), coeff M i (c + 2)).

Definition sub3 (a b : R * R * R) : R * R * R :=
  let '(a0, a1, a2) := a in
  let '(b0, b1, b2) := b in
  (s_sub a0 b0, s_sub a1 b1, s_sub a2 b2).

(** The 1x3 by 3x1 product, read at [(0,0)]. *)
Definition dot3 (a b : R * R * R) : R :=
  let '(a0, a1, a2) := a in
  let '(b0, b1, b2) := b in
  s_add (s_add (s_mul a0 b0) (s_mul a1 b1)) (s_mul a2 b2).

(** [f 0 + f 1 + ... + f (n-1)], accumulated from zero. *)
Definition sum_upto (n : nat) (f : nat -> R) : R :=
  fold_left (fun acc k => s_add acc (f k)) (seq 0 n) s_zero.

Definition transpose (M : Matrix R) : Matrix R :=
  mkMatrix (cols M) (rows M) (fun i j => coeff M j i).

(** [SparseMatrix<double> M(r, c)]: the empty matrix. *)
Definition empty_sparse (r c : nat) : Matrix R :=
  mkMatrix r c (fun _ _ => s_zero).

(** [VectorXd::Zero(n)] *)
Definition Zero (n : nat) : Vector R :=
  mkVector n (fun _ => s_zero).

(** The value [setFromTriplets] stores at [(i,j)]: duplicates are summed. *)
Definition triplet_sum (ts : list (Triplet R)) (i j : nat) : R :=
  fold_left
    (fun acc t => if (t_row t =? i) && (t_col t =? j)
                  then s_add acc (t_value t) else acc)
    ts s_zero.

Definition triplet_in_range (r c : nat) (t : Triplet R) : bool :=
  (t_row t <? r) && (t_col t <? c).

(** [SparseMatrix<double> M(r, c); M.setFromTriplets(ts.begin(), ts.end())] *)
Definition setFromTriplets (r c : nat) (ts : list (Triplet R))
  : checked (Matrix R) :=
  _ <- eigen_assert (forallb (triplet_in_range r c) ts) ;;
  Ok (mkMatrix r c (triplet_sum ts)).

(** [A * B] *)
Definition mmul (A B : Matrix R) : checked (Matrix R) :=
  _ <- eigen_assert (cols A =? rows B) ;;
  Ok (mkMatrix (rows A) (cols B)
        (fun i j => sum_upto (cols A) (fun k => s_mul (coeff A i k) (coeff B k j)))).

(** [A * v] *)
Definition mvmul (A : Matrix R) (v : Vector R) : checked (Vector R) :=
  _ <- eigen_assert (cols A =? size v) ;;
  Ok (mkVector (rows A)
        (fun i => sum_upto (cols A) (fun k => s_mul (coeff A i k) (vcoeff v k)))).

(** The coefficients of [A * B] and of [A * v], without the size check. *)
Definition mprod (A B : Matrix R) : Matrix R :=
  mkMatrix (rows A) (cols B)
    (fun i j => sum_upto (cols A) (fun k => s_mul (coeff A i k) (coeff B k j))).

Definition mvprod (A : Matrix R) (v : Vector R) : Vector R :=
  mkVector (rows A)
    (fun i => sum_upto (cols A) (fun k => s_mul (coeff A i k) (vcoeff v k))).

(** [b.segment(0, n) = v] *)
Definition segment_assign (b : Vector R) (n : nat) (v : Vector R)
  : checked (Vector R) :=
  _ <- eigen_assert (n <=? size b) ;;
  _ <- eigen_assert (size v =? n) ;;
  Ok (mkVector (size b) (fun i => if i <? n then vcoeff v i else vcoeff b i)).

(** [v.head(n)]: the first [n] entries of [v]. *)
Definition head (n : nat) (v : Vector R) : Vector R :=
  mkVector n (vcoeff v).

(** A dense matrix assigned from a vector expression: one column. *)
Definition as_column (v : Vector R) : Matrix R :=
  mkMatrix (size v) 1 (fun i _ => vcoeff v i).

(** The entries an [InnerIterator] sweep visits, outer index first.  The
    sparsity pattern is not part of the model: the nonzero coefficients
    stand for the stored ones. *)
Definition stored (M : Matrix R) : list (Triplet R) :=
  flat_map
    (fun k =>
       flat_map
         (fun i => if s_is_zero (coeff M i k) then []
                   else [mkTriplet i k (coeff M i k)])
         (seq 0 (rows M)))
    (seq 0 (cols M)).

End Ops.

End Eigen.


(* ================================================================== *)
(** * The routine *)
(* ================================================================== *)
Module directional.
Import Eigen.

(** The seven inputs of [parameterize], under the parameter names of the
    source.  [wholeF] and [FE] are integer matrices. *)
Record Input (R : Type) : Type := mkInput {
  wholeV : Matrix R;
  wholeF : Matrix Z;
  FE : Matrix Z;
  rawField : Matrix R;
  edgeWeights : Vector R;
  vt2cMat : Matrix R;
  constraintMat : Matrix R
}.

(** The three containers the triple loop fills. *)
Record Builder (R : Type) : Type := mkBuilder {
  d0Triplets : list (Triplet R);
  M1Triplets : list (Triplet R);
  gamma : Vector R
}.

(** Everything the routine has built when it reaches the solver. *)
Record System (R : Type) : Type := mkSystem {
  sys_d0 : Matrix R;
  sys_M1 : Matrix R;
  sys_gamma : Vector R;
  sys_EtE : Matrix R;
  sys_ATriplets : list (Triplet R);
  sys_A : Matrix R;
  sys_b : Vector R
}.

(** [Eigen::SparseLU]: [lu_compute A] is [solver.compute(A)] followed by
    [solver.info() == Success]; [lu_solve A b] gives the coefficients of
    [solver.solve(b)] and the value of [solver.info() == Success] after it. *)
Record SparseLU (R : Type) : Type := mkSparseLU {
  lu_compute : Matrix R -> bool;
  lu_solve : Matrix R -> Vector R -> (nat -> R) * bool
}.

(** What a caller can observe of one call. *)
Inductive Event (R : Type) : Type :=
| EvPrint (msg : string)
| EvFactorize (A : Matrix R)
| EvSolve (A : Matrix R) (b : Vector R).
Arguments EvPrint {R} msg.

(** How a call ends: it assigns [cornerUV]; it returns after the message
    of a failed factorization, or of a failed solve; or an [eigen_assert]
    stops the program. *)
Inductive Status : Type :=
| Success
| ComputeFailed
| SolveFailed
| Aborted.

Record Run (R : Type) : Type := mkRun {
  status : Status;
  cornerUV : Matrix R;
  trace : list (Event R)
}.

(** ** Index formulas of the loop body *)

(** [3*N*i+N*j+k] *)
Definition row_index (N i j k : nat) : nat := 3 * N * i + N * j + k.

(** [3*N*i+N*(j+1)%3+k]: in C++ [*] and [%] associate to the left, so the
    remainder is taken of [N*(j+1)]. *)
Definition plus_col (N i j k : nat) : nat := 3 * N * i + (N * (j + 1)) mod 3 + k.

(** The column the documentation of the operator names: the wrap-around is
    applied to the corner index, then scaled by the stride [N]. *)
Definition plus_col_spec (N i j k : nat) : nat :=
  3 * N * i + N * ((j + 1) mod 3) + k.

Section Parameterize.
Context {R : Type} {SR : Scalar R}.

(** [int N = rawField.cols()/3] *)
Definition branches (inp : Input R) : nat := cols (rawField inp) / 3.

(** [3*N*wholeF.rows()] *)
Definition corner_dim (inp : Input R) : nat :=
  3 * branches inp * rows (wholeF inp).

(** One pass through the body of the innermost loop. *)
Definition corner_step (inp : Input R) (i j k : nat) (st : Builder R)
  : checked (Builder R) :=
  let N := branches inp in
  let r := row_index N i j k in
  let d0' := d0Triplets st ++
             [mkTriplet r r (s_opp s_one); mkTriplet r (plus_col N i j k) s_one] in
  vnext <- at2 (wholeF inp) i ((j + 1) mod 3) ;;
  pnext <- row3 (wholeV inp) vnext ;;
  vcur <- at2 (wholeF inp) i j ;;
  pcur <- row3 (wholeV inp) vcur ;;
  let edgeVector := sub3 pnext pcur in
  fld <- block13 (rawField inp) i (3 * k) ;;
  g <- vset (gamma st) r (dot3 fld edgeVector) ;;
  e <- at2 (FE inp) i j ;;
  w <- vat (edgeWeights inp) e ;;
  Ok (mkBuilder d0' (M1Triplets st ++ [mkTriplet r r w]) g).

(** The state before the loop.  [gamma] is allocated without being filled;
    its initial content is taken to be zero, and the loop overwrites every
    entry of it ([build_gamma_covers]). *)
Definition builder_init (inp : Input R) : Builder R :=
  mkBuilder [] [] (Zero (corner_dim inp)).

(** The triple loop over faces, corners and branches. *)
Definition build (inp : Input R) : checked (Builder R) :=
  for_each (seq 0 (rows (wholeF inp)))
    (fun i =>
       for_each (seq 0 3)
         (fun j =>
            for_each (seq 0 (branches inp))
              (fun k => corner_step inp i j k)))
    (builder_init inp).

(** The two pushes per stored entry of the constraint matrix. *)
Definition constraint_triplets (n : nat) (it : Triplet R) : list (Triplet R) :=
  [mkTriplet (t_row it + n) (t_col it) (t_value it);
   mkTriplet (t_col it) (t_row it + n) (t_value it)].

(** From the end of the loop to the construction of [b].  [A] is declared
    with its size and nothing is ever inserted into it: [ATriplets] is
    filled but never handed to [A]. *)
Definition assemble (inp : Input R) : checked (System R) :=
  let n := corner_dim inp in
  st <- build inp ;;
  d0 <- setFromTriplets n n (d0Triplets st) ;;
  M1 <- setFromTriplets n n (M1Triplets st) ;;
  let d0T := transpose d0 in
  let vt2cMatTranspose := transpose (vt2cMat inp) in
  p1 <- mmul vt2cMatTranspose d0T ;;
  p2 <- mmul p1 M1 ;;
  p3 <- mmul p2 d0 ;;
  EtE <- mmul p3 (vt2cMat inp) ;;
  let A := empty_sparse (n + rows (constraintMat inp))
                        (n + rows (constraintMat inp)) in
  let ATriplets :=
    map (fun it => mkTriplet (t_row it) (t_col it) (t_value it)) (stored EtE) ++
    flat_map (constraint_triplets n) (stored (constraintMat inp)) in
  let b0 := Zero (rows vt2cMatTranspose + rows (constraintMat inp)) in
  q1 <- mmul vt2cMatTranspose d0T ;;
  top <- mvmul q1 (gamma st) ;;
  b <- segment_assign b0 (rows vt2cMatTranspose) top ;;
  Ok (mkSystem d0 M1 (gamma st) EtE ATriplets A b).

(** [VectorXd x = solver.solve(b)]: the solution has as many rows as the
    factorized matrix has columns. *)
Definition solution (lu : SparseLU R) (A : Matrix R) (b : Vector R) : Vector R :=
  mkVector (cols A) (fst (lu_solve lu A b)).

(** The call itself.  [cornerUV0] is the content of the output argument when
    the call is made. *)
Definition parameterize (lu : SparseLU R) (inp : Input R) (cornerUV0 : Matrix R)
  : Run R :=
  match assemble inp with
  | AssertFail => mkRun Aborted cornerUV0 []
  | Ok sys =>
    let A := sys_A sys in
    let b := sys_b sys in
    let t1 := [EvPrint "Computing A..."; EvFactorize A] in
    if negb (lu_compute lu A) then
      mkRun ComputeFailed cornerUV0 (t1 ++ [EvPrint "Compute failed!!!"])
    else
      let t2 := t1 ++ [EvPrint "Computing A done!"] in
      if negb (rows A =? size b) then mkRun Aborted cornerUV0 t2
      else
        let x := solution lu A b in
        let t3 := t2 ++ [EvSolve A b] in
        if negb (snd (lu_solve lu A b)) then
          mkRun SolveFailed cornerUV0 (t3 ++ [EvPrint "Solving failed!!!"])
        else
          match mvmul (vt2cMat inp) x with
          | AssertFail => mkRun Aborted cornerUV0 t3
          | Ok u => mkRun Success (as_column u) t3
          end
  end.

(** ** The loop body without its checks *)

(** The value stored in [gamma] for face [i], corner [j], branch [k]. *)
Definition gamma_value (inp : Input R) (i j k : nat) : R :=
  let a := Z.to_nat (coeff (wholeF inp) i j) in
  let b := Z.to_nat (coeff (wholeF inp) i ((j + 1) mod 3)) in
  let V := wholeV inp in
  let X := rawField inp in
  s_add
    (s_add (s_mul (coeff X i (3 * k)) (s_sub (coeff V b 0) (coeff V a 0)))
           (s_mul (coeff X i (3 * k + 1)) (s_sub (coeff V b 1) (coeff V a 1))))
    (s_mul (coeff X i (3 * k + 2)) (s_sub (coeff V b 2) (coeff V a 2))).

(** The weight of local edge [j] of face [i]. *)
Definition corner_weight (inp : Input R) (i j : nat) : R :=
  vcoeff (edgeWeights inp) (Z.to_nat (coeff (FE inp) i j)).

(** The two triplets one pass appends to [d0Triplets]. *)
Definition d0_pair (N : nat) (c : nat * nat * nat) : list (Triplet R) :=
  let '(i, j, k) := c in
  [mkTriplet (row_index N i j k) (row_index N i j k) (s_opp s_one);
   mkTriplet (row_index N i j k) (plus_col N i j k) s_one].

(** The triplet one pass appends to [M1Triplets]. *)
Definition M1_entry (inp : Input R) (c : nat * nat * nat) : Triplet R :=
  let '(i, j, k) := c in
  mkTriplet (row_index (branches inp) i j k) (row_index (branches inp) i j k)
            (corner_weight inp i j).

(** The passes of the triple loop, in the order they are made. *)
Definition corners (nF N : nat) : list (nat * nat * nat) :=
  flat_map
    (fun i => flat_map (fun j => map (fun k => (i, j, k)) (seq 0 N)) (seq 0 3))
    (seq 0 nF).

(** One pass, addressed by its place in [corners]. *)
Definition corner_pass (inp : Input R) (c : nat * nat * nat) (st : Builder R)
  : checked (Builder R) :=
  let '(i, j, k) := c in corner_step inp i j k st.

Definition row_of (N : nat) (c : nat * nat * nat) : nat :=
  let '(i, j, k) := c in row_index N i j k.

Definition gamma_of (inp : Input R) (c : nat * nat * nat) : R :=
  let '(i, j, k) := c in gamma_value inp i j k.

(** What a pass that meets no failed assertion does to the state. *)
Definition pass_effect (inp : Input R) (c : nat * nat * nat) (st : Builder R)
  : Builder R :=
  mkBuilder
    (d0Triplets st ++ d0_pair (branches inp) c)
    (M1Triplets st ++ [M1_entry inp c])
    (mkVector (size (gamma st))
       (fun r => if r =? row_of (branches inp) c then gamma_of inp c
                 else vcoeff (gamma st) r)).

(** Inputs of the shapes the header of the routine documents: [#V x 3]
    positions, [#F x 3] faces and face edges with valid indices, a field
    with a row per face, a corner map with [3*N*#F] rows. *)
Definition well_formed (inp : Input R) : Prop :=
  cols (wholeV inp) = 3 /\
  3 <= cols (wholeF inp) /\
  (forall i j, i < rows (wholeF inp) -> j < 3 ->
     (0 <= coeff (wholeF inp) i j < Z.of_nat (rows (wholeV inp)))%Z) /\
  rows (wholeF inp) <= rows (rawField inp) /\
  rows (wholeF inp) <= rows (FE inp) /\
  3 <= cols (FE inp) /\
  (forall i j, i < rows (wholeF inp) -> j < 3 ->
     (0 <= coeff (FE inp) i j < Z.of_nat (size (edgeWeights inp)))%Z) /\
  rows (vt2cMat inp) = corner_dim inp.

(** Replacing the field of an input. *)
Definition with_field (inp : Input R) (X : Matrix R) : Input R :=
  mkInput (wholeV inp) (wholeF inp) (FE inp) X (edgeWeights inp)
          (vt2cMat inp) (constraintMat inp).

(** Replacing the edge weights, or the constraint matrix, of an input. *)
Definition with_weights (inp : Input R) (w : Vector R) : Input R :=
  mkInput (wholeV inp) (wholeF inp) (FE inp) (rawField inp) w
          (vt2cMat inp) (constraintMat inp).

Definition with_constraints (inp : Input R) (C : Matrix R) : Input R :=
  mkInput (wholeV inp) (wholeF inp) (FE inp) (rawField inp) (edgeWeights inp)
          (vt2cMat inp) C.

(** What [assemble] returns from the state [st] the loop ends in, when no
    size check stops it. *)
Definition system_of (inp : Input R) (st : Builder R) : System R :=
  let n := corner_dim inp in
  let d0 := mkMatrix n n (triplet_sum (d0Triplets st)) in
  let M1 := mkMatrix n n (triplet_sum (M1Triplets st)) in
  let q := mprod (transpose (vt2cMat inp)) (transpose d0) in
  let EtE := mprod (mprod (mprod q M1) d0) (vt2cMat inp) in
  let top := mvprod q (gamma st) in
  mkSystem d0 M1 (gamma st) EtE
    (map (fun it => mkTriplet (t_row it) (t_col it) (t_value it)) (stored EtE) ++
     flat_map (constraint_triplets n) (stored (constraintMat inp)))
    (empty_sparse (n + rows (constraintMat inp)) (n + rows (constraintMat inp)))
    (mkVector (cols (vt2cMat inp) + rows (constraintMat inp))
       (fun i => if i <? cols (vt2cMat inp) then vcoeff top i else s_zero)).

(** Two loop states with the same [d0Triplets] and the same [gamma]. *)
Definition same_operator (st st' : Builder R) : Prop :=
  d0Triplets st = d0Triplets st' /\ gamma st = gamma st'.

(** The contract of a direct factorization used below: a matrix with a zero
    column is singular, and its factorization is reported as failed. *)
Definition rejects_zero_column (lu : SparseLU R) : Prop :=
  forall (A : Matrix R) (j : nat),
    j < cols A ->
    (forall i, i < rows A -> coeff A i j = s_zero) ->
    lu_compute lu A = false.

(** ** What the documentation of the routine asks for, for comparison *)

(** The right-hand side with the edge weights: [Pt * Dt * M * gamma]. *)
Definition weighted_rhs (inp : Input R) (sys : System R) : checked (Vector R) :=
  p1 <- mmul (transpose (vt2cMat inp)) (transpose (sys_d0 sys)) ;;
  p2 <- mmul p1 (sys_M1 sys) ;;
  mvmul p2 (sys_gamma sys).

(** The product the routine stores in the top of [b]: [Pt * Dt * gamma]. *)
Definition unweighted_rhs (inp : Input R) (sys : System R) : checked (Vector R) :=
  p1 <- mmul (transpose (vt2cMat inp)) (transpose (sys_d0 sys)) ;;
  mvmul p1 (sys_gamma sys).

End Parameterize.

End directional.


(* ================================================================== *)
(** * Concrete meshes and a stand-in solver *)
(* ================================================================== *)
Module Scenario.
Import Eigen directional.

(** A matrix given by its rows. *)
Definition of_rows {T : Type} (d : T) (r c : nat) (l : list (list T)) : Matrix T :=
  mkMatrix r c (fun i j => nth j (nth i l []) d).

Definition of_list {T : Type} (d : T) (l : list T) : Vector T :=
  mkVector (List.length l) (fun i => nth i l d).

Definition identity (n : nat) : Matrix Z :=
  mkMatrix n n (fun i j => if i =? j then 1%Z else 0%Z).

(** The first [n] coefficients of a vector, for display. *)
Definition to_list {T : Type} (v : Vector T) : list T :=
  map (vcoeff v) (seq 0 (size v)).

Definition column_to_list {T : Type} (M : Matrix T) : list T :=
  map (fun i => coeff M i 0) (seq 0 (rows M)).

(** One triangle with corners (0,0,0), (1,0,0), (0,1,0). *)
Definition tri_V : Matrix Z :=
  of_rows 0%Z 3 3 [[0; 0; 0]; [1; 0; 0]; [0; 1; 0]]%Z.
Definition tri_F : Matrix Z := of_rows 0%Z 1 3 [[0; 1; 2]]%Z.
Definition tri_FE : Matrix Z := of_rows 0%Z 1 3 [[0; 1; 2]]%Z.

(** The constraint row that pins the unknown of corner 0. *)
Definition pin_corner0 : Matrix Z := of_rows 0%Z 1 3 [[1; 0; 0]]%Z.

(** The scenario of the documentation: [N = 1], field (1,0,0), unit weights,
    identity corner map, corner 0 pinned. *)
Definition unit_triangle : Input Z :=
  mkInput tri_V tri_F tri_FE
    (of_rows 0%Z 1 3 [[1; 0; 0]]%Z)
    (of_list 0%Z [1; 1; 1]%Z)
    (identity 3)
    pin_corner0.

(** The same triangle with every edge weight equal to 2 and no constraint. *)
Definition heavy_triangle : Input Z :=
  mkInput tri_V tri_F tri_FE
    (of_rows 0%Z 1 3 [[1; 0; 0]]%Z)
    (of_list 0%Z [2; 2; 2]%Z)
    (identity 3)
    (of_rows 0%Z 0 3 []).

(** The same triangle without constraint rows. *)
Definition free_triangle : Input Z :=
  mkInput tri_V tri_F tri_FE
    (of_rows 0%Z 1 3 [[1; 0; 0]]%Z)
    (of_list 0%Z [1; 1; 1]%Z)
    (identity 3)
    (of_rows 0%Z 0 3 []).

(** The same triangle with a two-branch field ([N = 2]). *)
Definition two_branch_triangle : Input Z :=
  mkInput tri_V tri_F tri_FE
    (of_rows 0%Z 1 6 [[1; 0; 0; 0; 1; 0]]%Z)
    (of_list 0%Z [1; 1; 1]%Z)
    (identity 6)
    (of_rows 0%Z 0 6 []).

(** The same triangle with a three-branch field ([N = 3]). *)
Definition three_branch_triangle : Input Z :=
  mkInput tri_V tri_F tri_FE
    (of_rows 0%Z 1 9 [[1; 0; 0; 0; 1; 0; -1; 0; 0]]%Z)
    (of_list 0%Z [1; 1; 1]%Z)
    (identity 9)
    (of_rows 0%Z 0 9 []).

(** A field with four columns: [N = 1] and column 3 is beyond [3*N]. *)
Definition padded_field (pad : Z) : Matrix Z :=
  of_rows 0%Z 1 4 [[1; 0; 0; pad]]%Z.

Definition padded_triangle (pad : Z) : Input Z :=
  mkInput tri_V tri_F tri_FE
    (padded_field pad)
    (of_list 0%Z [1; 1; 1]%Z)
    (identity 3)
    pin_corner0.

(** The documented scenario with a corner map of two rows instead of
    three. *)
Definition short_map_triangle : Input Z :=
  mkInput tri_V tri_F tri_FE
    (of_rows 0%Z 1 3 [[1; 0; 0]]%Z)
    (of_list 0%Z [1; 1; 1]%Z)
    (identity 2)
    pin_corner0.

(** A field of two columns ([N = 0]) on a face whose vertex and edge
    indices are all out of range. *)
Definition fieldless_input : Input Z :=
  mkInput tri_V (of_rows 0%Z 1 3 [[7; -1; 9]]%Z) (of_rows 0%Z 1 3 [[5; 5; 5]]%Z)
    (of_rows 0%Z 1 2 [[1; 0]]%Z)
    (of_list 0%Z [])
    (of_rows 0%Z 0 2 [])
    (of_rows 0%Z 1 2 [[1; 0]]%Z).

(** Two faces on four vertices, with different weights on the five
    edges. *)
Definition two_faces : Input Z :=
  mkInput
    (of_rows 0%Z 4 3 [[0; 0; 0]; [2; 0; 0]; [0; 3; 0]; [2; 3; 1]]%Z)
    (of_rows 0%Z 2 3 [[0; 1; 2]; [2; 1; 3]]%Z)
    (of_rows 0%Z 2 3 [[0; 1; 2]; [1; 3; 4]]%Z)
    (of_rows 0%Z 2 3 [[1; 2; 0]; [0; 1; 1]]%Z)
    (of_list 0%Z [1; 2; 3; 4; 5]%Z)
    (identity 6)
    (of_rows 0%Z 1 6 [[1; 0; 0; 0; 0; 0]]%Z).

Definition has_zero_column (A : Matrix Z) : bool :=
  existsb
    (fun j => forallb (fun i => (coeff A i j =? 0)%Z) (seq 0 (rows A)))
    (seq 0 (cols A)).

(** A stand-in for the solver, used to instantiate solver hypotheses: it
    refuses a matrix with a zero column, as a direct factorization does, and
    otherwise reports success and hands back the right-hand side. *)
Definition column_check_lu : SparseLU Z :=
  mkSparseLU
    (fun A => negb (has_zero_column A))
    (fun _ b => (vcoeff b, true)).

(** A stand-in whose factorization succeeds and whose solve reports an
    error. *)
Definition failing_solve_lu : SparseLU Z :=
  mkSparseLU (fun _ => true) (fun _ b => (vcoeff b, false)).

(** A stand-in that reports success at both steps, whatever the matrix. *)
Definition accepting_lu : SparseLU Z :=
  mkSparseLU (fun _ => true) (fun _ b => (vcoeff b, true)).

(** A stand-in that reports success at both steps and whose solution is
    [10, 11, 12, ...], whatever the system. *)
Definition counting_lu : SparseLU Z :=
  mkSparseLU (fun _ => true) (fun _ _ => (fun i => Z.of_nat (10 + i), true)).

(** Some previous content of the output argument. *)
Definition stale_uv : Matrix Z := of_rows 0%Z 2 2 [[7; 8]; [9; 10]]%Z.

End Scenario.


(* ================================================================== *)
(** * Properties *)
(* ================================================================== *)
Import Eigen directional.

(** ** The assertion monad and the loop combinator *)

Lemma bind_Ok {A B : Type} (m : checked A) (f : A -> checked B) (b : B) :
  bind m f = Ok b -> exists a, m = Ok a /\ f a = Ok b.
Proof.
  destruct m as [a|]; simpl; intros H.
  - exists a; split; [reflexivity | exact H].
  - discriminate H.
Qed.

Lemma eigen_assert_Ok (c : bool) (u : unit) :
  eigen_assert c = Ok u -> c = true.
Proof.
  destruct c; simpl; [reflexivity | discriminate].
Qed.

Lemma eigen_assert_true (c : bool) :
  c = true -> eigen_assert c = Ok tt.
Proof.
  intros ->; reflexivity.
Qed.

Lemma is_ok_exists {A : Type} (m : checked A) :
  is_ok m = true -> exists a, m = Ok a.
Proof.
  destruct m as [a|]; simpl; [exists a; reflexivity | discriminate].
Qed.

Lemma value_or_Ok {A : Type} (m : checked A) (a : A) :
  m = Ok a -> a = value_or a m.
Proof.
  intros ->; reflexivity.
Qed.

(** Evaluation on a concrete input: the result of a successful computation
    is named by [H], and the goal is about that result. *)
Ltac reveal H := rewrite (value_or_Ok H).
Ltac evaluate_at H := reveal H; vm_compute.

(** Peel every successful [bind] and assertion out of the hypotheses. *)
Ltac unbind :=
  repeat match goal with
         | H : bind _ _ = Ok _ |- _ =>
           apply bind_Ok in H; destruct H as (? & ? & ?)
         | H : eigen_assert _ = Ok _ |- _ => apply eigen_assert_Ok in H
         | H : Ok _ = Ok _ |- _ => injection H as H; try subst
         end.

Lemma for_each_app {X S : Type} (l1 l2 : list X) (f : X -> S -> checked S) (s : S) :
  for_each (l1 ++ l2) f s = bind (for_each l1 f s) (for_each l2 f).
Proof.
  revert s; induction l1 as [|x l1 IH]; intros s; simpl.
  - reflexivity.
  - destruct (f x s) as [s'|]; simpl; [apply IH | reflexivity].
Qed.

Lemma for_each_flat_map {X Y S : Type} (g : X -> list Y) (l : list X)
      (f : Y -> S -> checked S) (s : S) :
  for_each l (fun x => for_each (g x) f) s = for_each (flat_map g l) f s.
Proof.
  revert s; induction l as [|x l IH]; intros s; simpl.
  - reflexivity.
  - rewrite for_each_app.
    destruct (for_each (g x) f s) as [s'|]; simpl; [apply IH | reflexivity].
Qed.

Lemma for_each_map {X Y S : Type} (h : X -> Y) (l : list X)
      (f : Y -> S -> checked S) (s : S) :
  for_each l (fun x => f (h x)) s = for_each (map h l) f s.
Proof.
  revert s; induction l as [|x l IH]; intros s; simpl.
  - reflexivity.
  - destruct (f (h x) s) as [s'|]; simpl; [apply IH | reflexivity].
Qed.

Lemma for_each_ext_in {X S : Type} (l : list X) (f g : X -> S -> checked S) (s : S) :
  (forall x s0, In x l -> f x s0 = g x s0) ->
  for_each l f s = for_each l g s.
Proof.
  revert s; induction l as [|x l IH]; intros s Hfg; simpl.
  - reflexivity.
  - rewrite (Hfg x s (or_introl eq_refl)).
    destruct (g x s) as [s'|]; simpl; [|reflexivity].
    apply IH; intros y s0 Hy; apply Hfg; right; exact Hy.
Qed.

(** A loop whose passes succeed from every state satisfying an invariant
    runs to its end, and the invariant holds there. *)
Lemma for_each_total {X S : Type} (Inv : S -> Prop) (l : list X)
      (f : X -> S -> checked S) :
  (forall x s, In x l -> Inv s -> exists s', f x s = Ok s' /\ Inv s') ->
  forall s, Inv s -> exists s', for_each l f s = Ok s' /\ Inv s'.
Proof.
  induction l as [|x l IH]; intros Hstep s Hs; simpl.
  - exists s; split; [reflexivity | exact Hs].
  - destruct (Hstep x s (or_introl eq_refl) Hs) as (s1 & -> & Hs1); simpl.
    apply IH; [|exact Hs1].
    intros y s0 Hy; apply Hstep; right; exact Hy.
Qed.

(** ** Index arithmetic of the loop *)

Lemma seq_blocks (n m a : nat) :
  flat_map (fun i => seq (a + n * i) n) (seq 0 m) = seq a (n * m).
Proof.
  induction m as [|m IH].
  - rewrite Nat.mul_0_r; reflexivity.
  - rewrite seq_S, flat_map_app, IH; simpl.
    rewrite app_nil_r, <- seq_app.
    f_equal; lia.
Qed.

Lemma row_index_bound (N nF i j k : nat) :
  i < nF -> j < 3 -> k < N -> row_index N i j k < 3 * N * nF.
Proof.
  unfold row_index; intros Hi Hj Hk.
  assert (N * j + k < 3 * N) by nia.
  assert (3 * N * (i + 1) <= 3 * N * nF) by (apply Nat.mul_le_mono_l; lia).
  nia.
Qed.

Lemma plus_col_bound (N nF i j k : nat) :
  i < nF -> k < N -> plus_col N i j k < 3 * N * nF.
Proof.
  unfold plus_col; intros Hi Hk.
  assert ((N * (j + 1)) mod 3 < 3) by (apply Nat.mod_upper_bound; lia).
  assert (3 * N * (i + 1) <= 3 * N * nF) by (apply Nat.mul_le_mono_l; lia).
  nia.
Qed.

Lemma map_add_seq (base a n : nat) :
  map (fun k => base + k) (seq a n) = seq (base + a) n.
Proof.
  revert a; induction n as [|n IH]; intros a; simpl.
  - reflexivity.
  - f_equal. rewrite IH. f_equal; lia.
Qed.

(** The loop visits the rows [0, 1, 2, ...] in increasing order. *)
Lemma corners_rows (nF N : nat) :
  map (fun c => let '(i, j, k) := c in row_index N i j k) (corners nF N)
  = seq 0 (3 * N * nF).
Proof.
  unfold corners.
  rewrite <- (seq_blocks (3 * N) nF 0).
  rewrite flat_map_concat_map, concat_map, map_map, <- flat_map_concat_map.
  apply flat_map_ext; intros i.
  rewrite <- (Nat.mul_comm N 3), <- (seq_blocks N 3 (0 + N * 3 * i)).
  rewrite flat_map_concat_map, concat_map, map_map, <- flat_map_concat_map.
  apply flat_map_ext; intros j.
  rewrite map_map; unfold row_index.
  replace (0 + N * 3 * i + N * j) with (3 * N * i + N * j + 0) by lia.
  apply map_add_seq.
Qed.

(** ** The triple loop *)

Section BuildFacts.
Context {R : Type} {SR : Scalar R}.
Variable inp : Input R.

Lemma build_flat :
  build inp
  = for_each (corners (rows (wholeF inp)) (branches inp)) (corner_pass inp)
             (builder_init inp).
Proof.
  unfold build, corners.
  rewrite <- for_each_flat_map.
  apply for_each_ext_in; intros i s _.
  rewrite <- for_each_flat_map.
  apply for_each_ext_in; intros j s0 _.
  rewrite <- for_each_map.
  reflexivity.
Qed.

Lemma in_corners (nF N i j k : nat) :
  In (i, j, k) (corners nF N) <-> i < nF /\ j < 3 /\ k < N.
Proof.
  unfold corners; rewrite in_flat_map; split.
  - intros (i' & Hi & H). apply in_flat_map in H; destruct H as (j' & Hj & H).
    apply in_map_iff in H; destruct H as (k' & E & Hk).
    inversion E; subst. apply in_seq in Hi, Hj, Hk. lia.
  - intros (Hi & Hj & Hk). exists i; split; [apply in_seq; lia|].
    apply in_flat_map; exists j; split; [apply in_seq; lia|].
    apply in_map_iff; exists k; split; [reflexivity | apply in_seq; lia].
Qed.

Lemma corner_step_Ok (i j k : nat) (st st' : Builder R) :
  corner_step inp i j k st = Ok st' -> st' = pass_effect inp (i, j, k) st.
Proof.
  unfold corner_step, at2, row3, block13, vset, vat; intros H.
  unbind. reflexivity.
Qed.

Lemma passes_lists (l : list (nat * nat * nat)) (s s' : Builder R) :
  for_each l (corner_pass inp) s = Ok s' ->
  d0Triplets s' = d0Triplets s ++ flat_map (d0_pair (branches inp)) l /\
  M1Triplets s' = M1Triplets s ++ map (M1_entry inp) l /\
  size (gamma s') = size (gamma s).
Proof.
  revert s; induction l as [|[[i j] k] l IH]; intros s H; simpl in H.
  - injection H as <-. simpl. rewrite !app_nil_r. auto.
  - apply bind_Ok in H; destruct H as (s1 & H1 & H).
    apply corner_step_Ok in H1; subst s1.
    destruct (IH _ H) as (E1 & E2 & E3).
    rewrite E1, E2, E3; simpl.
    rewrite <- !app_assoc. auto.
Qed.

Lemma passes_gamma (l : list (nat * nat * nat)) (s s' : Builder R) :
  for_each l (corner_pass inp) s = Ok s' ->
  NoDup (map (row_of (branches inp)) l) ->
  (forall c, In c l ->
     vcoeff (gamma s') (row_of (branches inp) c) = gamma_of inp c) /\
  (forall r, ~ In r (map (row_of (branches inp)) l) ->
     vcoeff (gamma s') r = vcoeff (gamma s) r).
Proof.
  revert s; induction l as [|c l IH]; intros s H ND; simpl in H.
  - injection H as <-. split; [intros c [] | reflexivity].
  - apply bind_Ok in H; destruct H as (s1 & H1 & H).
    destruct c as [[i j] k]. simpl in H1.
    apply corner_step_Ok in H1; subst s1.
    cbn [map] in ND; inversion ND as [|? ? Hnotin ND']; subst.
    destruct (IH _ H ND') as (Hin & Hout).
    split.
    + intros c [<- | Hc]; [|apply Hin; exact Hc].
      cbn [row_of gamma_of].
      rewrite (Hout _ Hnotin); cbn [pass_effect gamma vcoeff row_of gamma_of].
      rewrite Nat.eqb_refl; reflexivity.
    + intros r Hr; cbn [map In row_of] in Hr.
      rewrite Hout by tauto. cbn [pass_effect gamma vcoeff row_of].
      destruct (Nat.eqb_spec r (row_index (branches inp) i j k)) as [->|_];
        [exfalso; apply Hr; left; reflexivity | reflexivity].
Qed.

Lemma corners_NoDup (nF N : nat) : NoDup (map (row_of N) (corners nF N)).
Proof.
  replace (map (row_of N) (corners nF N)) with (seq 0 (3 * N * nF)).
  - apply seq_NoDup.
  - symmetry. rewrite <- corners_rows. apply map_ext; intros [[i j] k]; reflexivity.
Qed.

(** Every entry of [gamma] the loop reaches holds the value of its pass. *)
Lemma build_gamma (st : Builder R) (i j k : nat) :
  build inp = Ok st ->
  i < rows (wholeF inp) -> j < 3 -> k < branches inp ->
  vcoeff (gamma st) (row_index (branches inp) i j k) = gamma_value inp i j k.
Proof.
  rewrite build_flat; intros H Hi Hj Hk.
  destruct (passes_gamma _ _ H (corners_NoDup _ _)) as (Hin & _).
  apply (Hin (i, j, k)), in_corners; auto.
Qed.

(** Every entry of [gamma] is reached: the content [gamma] is allocated
    with never shows. *)
Lemma build_gamma_covers (st : Builder R) (r : nat) :
  build inp = Ok st ->
  r < corner_dim inp ->
  exists i j k,
    i < rows (wholeF inp) /\ j < 3 /\ k < branches inp /\
    r = row_index (branches inp) i j k /\
    vcoeff (gamma st) r = gamma_value inp i j k.
Proof.
  intros H Hr.
  assert (Hin : In r (map (row_of (branches inp))
                          (corners (rows (wholeF inp)) (branches inp)))).
  { replace (map (row_of (branches inp))
                 (corners (rows (wholeF inp)) (branches inp)))
      with (seq 0 (3 * branches inp * rows (wholeF inp))).
    - apply in_seq; unfold corner_dim in Hr; lia.
    - symmetry; rewrite <- corners_rows.
      apply map_ext; intros [[i j] k]; reflexivity. }
  apply in_map_iff in Hin; destruct Hin as ([[i j] k] & <- & Hc).
  apply in_corners in Hc; destruct Hc as (Hi & Hj & Hk).
  exists i, j, k. repeat split; try assumption.
  apply build_gamma; assumption.
Qed.

Lemma build_lists (st : Builder R) :
  build inp = Ok st ->
  d0Triplets st
  = flat_map (d0_pair (branches inp)) (corners (rows (wholeF inp)) (branches inp)) /\
  M1Triplets st
  = map (M1_entry inp) (corners (rows (wholeF inp)) (branches inp)) /\
  size (gamma st) = corner_dim inp.
Proof.
  rewrite build_flat; intros H.
  apply passes_lists in H; simpl in H. exact H.
Qed.

End BuildFacts.

(** ** Well-formed inputs pass every assertion up to the solver *)

Section Totality.
Context {R : Type} {SR : Scalar R}.
Variable inp : Input R.
Hypothesis WF : well_formed inp.

Lemma field_block_in_range (k : nat) :
  k < branches inp -> 3 * k + 3 <= cols (rawField inp).
Proof.
  unfold branches; intros Hk.
  pose proof (Nat.Div0.mul_div_le (cols (rawField inp)) 3). lia.
Qed.

Lemma corner_step_total (i j k : nat) (st : Builder R) :
  i < rows (wholeF inp) -> j < 3 -> k < branches inp ->
  size (gamma st) = corner_dim inp ->
  corner_step inp i j k st = Ok (pass_effect inp (i, j, k) st).
Proof.
  intros Hi Hj Hk Hsz.
  destruct WF as (HV & HF & HFr & HX & HE & HEc & HEr & HP).
  assert (Hj' : (j + 1) mod 3 < 3) by (apply Nat.mod_upper_bound; lia).
  pose proof (HFr i j Hi Hj) as Ha.
  pose proof (HFr i _ Hi Hj') as Hb.
  pose proof (HEr i j Hi Hj) as He.
  pose proof (field_block_in_range Hk) as Hblk.
  pose proof (row_index_bound (N := branches inp) (nF := rows (wholeF inp)) Hi Hj Hk) as Hr.
  unfold corner_step, at2, row3, block13, vset, vat.
  repeat match goal with
         | |- context [eigen_assert ?c] =>
           rewrite (@eigen_assert_true c);
           [cbn [bind] |
            repeat (apply andb_true_intro; split);
            first [apply Nat.ltb_lt | apply Nat.leb_le | apply Nat.eqb_eq
                  | apply Z.leb_le | apply Z.ltb_lt];
            unfold corner_dim in *; lia]
         end.
  reflexivity.
Qed.

Lemma build_total : exists st, build inp = Ok st.
Proof.
  rewrite build_flat.
  destruct (for_each_total (fun s => size (gamma s) = corner_dim inp)
              (corners (rows (wholeF inp)) (branches inp)) (corner_pass inp))
    with (s := builder_init inp) as (st & Hst & _).
  - intros [[i j] k] s Hin Hs. apply in_corners in Hin.
    destruct Hin as (Hi & Hj & Hk).
    exists (pass_effect inp (i, j, k) s); split.
    + apply corner_step_total; assumption.
    + exact Hs.
  - reflexivity.
  - exists st; exact Hst.
Qed.

End Totality.

(** The triplets of both lists address entries of a square matrix of size
    [3*N*#F], whatever the wrap-around formula does. *)
Lemma d0_triplets_in_range {R : Type} {SR : Scalar R} (nF N : nat) :
  forallb (triplet_in_range (3 * N * nF) (3 * N * nF))
          (flat_map (d0_pair (R := R) N) (corners nF N)) = true.
Proof.
  apply forallb_forall; intros t Ht.
  apply in_flat_map in Ht; destruct Ht as ([[i j] k] & Hc & Ht).
  apply in_corners in Hc; destruct Hc as (Hi & Hj & Hk).
  pose proof (row_index_bound Hi Hj Hk).
  pose proof (plus_col_bound j Hi Hk).
  unfold triplet_in_range.
  destruct Ht as [<- | [<- | []]]; cbn [t_row t_col];
    apply andb_true_intro; split; apply Nat.ltb_lt; assumption.
Qed.

Lemma M1_triplets_in_range {R : Type} {SR : Scalar R} (inp : Input R) :
  forallb (triplet_in_range (corner_dim inp) (corner_dim inp))
          (map (M1_entry inp) (corners (rows (wholeF inp)) (branches inp))) = true.
Proof.
  apply forallb_forall; intros t Ht.
  apply in_map_iff in Ht; destruct Ht as ([[i j] k] & <- & Hc).
  apply in_corners in Hc; destruct Hc as (Hi & Hj & Hk).
  pose proof (row_index_bound Hi Hj Hk).
  unfold triplet_in_range, corner_dim; cbn [M1_entry t_row t_col].
  apply andb_true_intro; split; apply Nat.ltb_lt; assumption.
Qed.

(** ** The assembled system *)

Section AssembleFacts.
Context {R : Type} {SR : Scalar R}.
Variable inp : Input R.

(** The shape of everything [assemble] returns. *)
Lemma assemble_shape (sys : System R) :
  assemble inp = Ok sys ->
  (exists st, build inp = Ok st /\ sys_gamma sys = gamma st) /\
  rows (vt2cMat inp) = corner_dim inp /\
  rows (sys_d0 sys) = corner_dim inp /\
  cols (sys_d0 sys) = corner_dim inp /\
  rows (sys_EtE sys) = cols (vt2cMat inp) /\
  cols (sys_EtE sys) = cols (vt2cMat inp) /\
  sys_A sys = empty_sparse (corner_dim inp + rows (constraintMat inp))
                           (corner_dim inp + rows (constraintMat inp)) /\
  size (sys_b sys) = cols (vt2cMat inp) + rows (constraintMat inp).
Proof.
  unfold assemble, setFromTriplets, mmul, mvmul, segment_assign; intros H.
  unbind.
  repeat match goal with
         | E : (_ =? _) = true |- _ => apply Nat.eqb_eq in E
         end.
  cbn in *.
  repeat split; try reflexivity; try congruence.
  eexists; split; [eassumption | reflexivity].
Qed.

(** The top of [b] is [Pt * Dt * gamma]; the rest of [b] is zero. *)
Lemma assemble_rhs (sys : System R) :
  assemble inp = Ok sys ->
  (exists top,
     unweighted_rhs inp sys = Ok top /\
     size top = cols (vt2cMat inp) /\
     forall i, i < cols (vt2cMat inp) -> vcoeff (sys_b sys) i = vcoeff top i) /\
  (forall i, cols (vt2cMat inp) <= i -> vcoeff (sys_b sys) i = s_zero).
Proof.
  unfold assemble, unweighted_rhs; intros H.
  unbind. cbn [sys_d0 sys_gamma sys_b].
  match goal with
  | E : mmul (transpose (vt2cMat inp)) _ = Ok ?q,
    E' : mvmul ?q _ = Ok ?t,
    E'' : segment_assign _ _ ?t = Ok ?b |- _ =>
    rewrite E; cbn [bind]; rewrite E';
    unfold segment_assign in E''; unbind;
    rename E into Eq1, E' into Etop
  end.
  match goal with
  | E : (size _ =? _) = true |- _ => apply Nat.eqb_eq in E; rename E into Esz
  end.
  cbn [transpose rows] in *.
  split.
  - eexists; split; [reflexivity | split; [exact Esz|]].
    intros i Hi; cbn [vcoeff].
    apply Nat.ltb_lt in Hi; rewrite Hi; reflexivity.
  - intros i Hi; cbn [vcoeff].
    destruct (Nat.ltb_spec i (cols (vt2cMat inp))); [lia | reflexivity].
Qed.

(** With a corner map of [3*N*#F] rows nothing stops [assemble]. *)
Lemma assemble_total : well_formed inp -> exists sys, assemble inp = Ok sys.
Proof.
  intros WF.
  destruct (build_total WF) as (st & Hst).
  destruct (build_lists _ Hst) as (Ed0 & EM1 & Esz).
  destruct WF as (_ & _ & _ & _ & _ & _ & _ & HP).
  pose proof (M1_triplets_in_range inp) as HM1.
  unfold assemble. rewrite Hst; cbn [bind].
  unfold setFromTriplets.
  rewrite Ed0, EM1.
  unfold corner_dim in *.
  rewrite (eigen_assert_true (d0_triplets_in_range _ _)); cbn [bind].
  rewrite (eigen_assert_true HM1); cbn [bind].
  unfold mmul, mvmul, segment_assign; cbn [transpose rows cols size Zero bind].
  repeat match goal with
         | |- context [eigen_assert ?c] =>
           rewrite (@eigen_assert_true c);
           [cbn [bind rows cols size] |
            first [apply Nat.eqb_eq | apply Nat.leb_le]; lia]
         end.
  eexists; reflexivity.
Qed.

End AssembleFacts.

(* ================================================================== *)
(** * The claims *)
(* ================================================================== *)
Import Scenario.

(** ** The difference operator and the target vector *)

(** C8.  With a single branch ([N = 1]) the column the routine computes for
    the [+1] entry, [3*N*i + (N*(j+1)) mod 3 + k], is the column
    [3*N*i + N*((j+1) mod 3) + k], for every face [i], corner [j] in
    [{0,1,2}] and the only branch [k = 0]. *)
Theorem plus_col_single_branch (i j k : nat) :
  j < 3 -> k < 1 -> plus_col 1 i j k = plus_col_spec 1 i j k.
Proof.
  intros _ _. unfold plus_col, plus_col_spec.
  rewrite !Nat.mul_1_l. reflexivity.
Qed.

Lemma plus_col_single_branch_witness :
  2 < 3 /\ 0 < 1 /\ plus_col 1 5 2 0 = 15 /\ plus_col_spec 1 5 2 0 = 15.
Proof.
  split; [lia|]. split; [lia|].
  split; [reflexivity|].
  rewrite <- (@plus_col_single_branch 5 2 0); [reflexivity | lia | lia].
Defined.

(** C5.  After the loop, for every face [i], corner [j] and branch [k], the
    entry [3*N*i + N*j + k] of [gamma] is the dot product of the three field
    columns starting at [3*k] of row [i] with the difference between the
    position of corner [(j+1) mod 3] and the position of corner [j] of face
    [i]. *)
Theorem gamma_is_field_dot_edge {R : Type} {SR : Scalar R}
        (inp : Input R) (st : Builder R) (i j k : nat) :
  build inp = Ok st ->
  i < rows (wholeF inp) -> j < 3 -> k < branches inp ->
  let N := cols (rawField inp) / 3 in
  let a := Z.to_nat (coeff (wholeF inp) i j) in
  let b := Z.to_nat (coeff (wholeF inp) i ((j + 1) mod 3)) in
  let V := wholeV inp in
  let X := rawField inp in
  vcoeff (gamma st) (3 * N * i + N * j + k)
  = s_add
      (s_add (s_mul (coeff X i (3 * k)) (s_sub (coeff V b 0) (coeff V a 0)))
             (s_mul (coeff X i (3 * k + 1)) (s_sub (coeff V b 1) (coeff V a 1))))
      (s_mul (coeff X i (3 * k + 2)) (s_sub (coeff V b 2) (coeff V a 2))).
Proof.
  intros H Hi Hj Hk; cbv zeta.
  exact (@build_gamma R SR inp st i j k H Hi Hj Hk).
Qed.

Lemma gamma_is_field_dot_edge_witness :
  exists st, build two_branch_triangle = Ok st /\
             vcoeff (gamma st) 3 = 1%Z.
Proof.
  eexists; split; [reflexivity|].
  etransitivity.
  - apply (@gamma_is_field_dot_edge Z _ two_branch_triangle _ 0 1 1).
    + reflexivity.
    + cbn; lia.
    + lia.
    + cbn; lia.
  - reflexivity.
Defined.

(** C2.  The [+1] entry of the difference operator for two branches.  On
    one triangle with [N = 2], the row of corner [j = 1], branch [k = 0] is
    row 2; the column [3*N*i + N*((j+1) mod 3) + k] is 4, the routine
    computes column [3*N*i + (N*(j+1)) mod 3 + k = 1], and the assembled
    operator has [+1] at column 1 and nothing at column 4. *)
Theorem d0_plus_entry_two_branches :
  exists sys,
    assemble two_branch_triangle = Ok sys /\
    branches two_branch_triangle = 2 /\
    row_index 2 0 1 0 = 2 /\
    plus_col_spec 2 0 1 0 = 4 /\
    plus_col 2 0 1 0 = 1 /\
    map (coeff (sys_d0 sys) 2) (seq 0 6) = [0; 1; -1; 0; 0; 0]%Z.
Proof.
  destruct (is_ok_exists (assemble two_branch_triangle)) as [sys H];
    [vm_compute; reflexivity|].
  exists sys; split; [exact H|].
  do 4 (split; [reflexivity|]).
  evaluate_at H; reflexivity.
Qed.

(** For three branches the remainder [(3*(j+1)) mod 3] is always zero: both
    triplets of corner 0, branch 0 land on the diagonal and cancel, and the
    first row of the operator is empty. *)
Lemma d0_first_row_three_branches :
  exists st d0,
    build three_branch_triangle = Ok st /\
    setFromTriplets 9 9 (d0Triplets st) = Ok d0 /\
    plus_col 3 0 0 0 = row_index 3 0 0 0 /\
    map (coeff d0 0) (seq 0 9) = [0; 0; 0; 0; 0; 0; 0; 0; 0]%Z.
Proof.
  destruct (is_ok_exists (build three_branch_triangle)) as [st H];
    [vm_compute; reflexivity|].
  destruct (is_ok_exists (setFromTriplets 9 9 (d0Triplets st))) as [d0 Hd];
    [evaluate_at H; reflexivity|].
  exists st, d0; split; [exact H|]. split; [exact Hd|].
  split; [reflexivity|].
  reveal Hd; evaluate_at H; reflexivity.
Qed.

(** The columns of the two formulas differ whenever [N = 2] and [j = 1]. *)
Lemma plus_col_differs_two_branches (i k : nat) :
  plus_col 2 i 1 k <> plus_col_spec 2 i 1 k.
Proof.
  unfold plus_col, plus_col_spec.
  change ((2 * (1 + 1)) mod 3) with 1.
  change ((1 + 1) mod 3) with 2. lia.
Qed.

(** ** The augmented system *)

(** C1.  The right-hand side on one triangle whose three edge weights are 2
    (field (1,0,0), identity corner map, no constraint): the routine stores
    [Pt * Dt * gamma = (-1, 2, -1)], while [Pt * Dt * M * gamma] is
    [(-2, 4, -2)]. *)
Theorem rhs_without_edge_weights :
  exists sys w,
    assemble heavy_triangle = Ok sys /\
    weighted_rhs heavy_triangle sys = Ok w /\
    to_list (sys_b sys) = [-1; 2; -1]%Z /\
    to_list w = [-2; 4; -2]%Z.
Proof.
  destruct (is_ok_exists (assemble heavy_triangle)) as [sys H];
    [vm_compute; reflexivity|].
  destruct (is_ok_exists (weighted_rhs heavy_triangle sys)) as [w Hw];
    [evaluate_at H; reflexivity|].
  exists sys, w; split; [exact H|]. split; [exact Hw|].
  split.
  - evaluate_at H; reflexivity.
  - reveal Hw. evaluate_at H. reflexivity.
Qed.

(** C3.  The matrix handed to the solver on the documented scenario: the
    energy matrix has 2 at (0,0) and the constraint matrix has 1 at (0,0),
    eleven triplets are collected for [A], and [A] itself holds no entry. *)
Theorem augmented_matrix_is_empty :
  exists sys,
    assemble unit_triangle = Ok sys /\
    coeff (sys_EtE sys) 0 0 = 2%Z /\
    coeff (constraintMat unit_triangle) 0 0 = 1%Z /\
    List.length (sys_ATriplets sys) = 11 /\
    rows (sys_A sys) = 4 /\ cols (sys_A sys) = 4 /\
    map (fun i => map (coeff (sys_A sys) i) (seq 0 4)) (seq 0 4)
    = [[0; 0; 0; 0]; [0; 0; 0; 0]; [0; 0; 0; 0]; [0; 0; 0; 0]]%Z.
Proof.
  destruct (is_ok_exists (assemble unit_triangle)) as [sys H];
    [vm_compute; reflexivity|].
  exists sys; split; [exact H|].
  evaluate_at H. repeat split.
Qed.

(** Whatever the input, [A] has size [3*N*#F + #constraints] and every
    coefficient of it is zero. *)
Lemma augmented_matrix_never_filled {R : Type} {SR : Scalar R}
      (inp : Input R) (sys : System R) :
  assemble inp = Ok sys ->
  rows (sys_A sys) = corner_dim inp + rows (constraintMat inp) /\
  cols (sys_A sys) = corner_dim inp + rows (constraintMat inp) /\
  forall i j, coeff (sys_A sys) i j = s_zero.
Proof.
  intros H. destruct (assemble_shape _ H) as (_ & _ & _ & _ & _ & _ & -> & _).
  repeat split.
Qed.

(** The triplets collected for [A] on the documented scenario do describe
    the saddle-point matrix, and [(0, 1, 0)] with multiplier 0 solves that
    system for the right-hand side the routine builds. *)
Lemma unit_triangle_intended_system :
  exists sys K y,
    assemble unit_triangle = Ok sys /\
    setFromTriplets 4 4 (sys_ATriplets sys) = Ok K /\
    map (fun i => map (coeff K i) (seq 0 4)) (seq 0 4)
    = [[2; -1; -1; 1]; [-1; 2; -1; 0]; [-1; -1; 2; 0]; [1; 0; 0; 0]]%Z /\
    mvmul K (of_list 0%Z [0; 1; 0; 0]%Z) = Ok y /\
    to_list y = [-1; 2; -1; 0]%Z /\
    to_list (sys_b sys) = [-1; 2; -1; 0]%Z.
Proof.
  destruct (is_ok_exists (assemble unit_triangle)) as [sys H];
    [vm_compute; reflexivity|].
  destruct (is_ok_exists (setFromTriplets 4 4 (sys_ATriplets sys))) as [K HK];
    [evaluate_at H; reflexivity|].
  destruct (is_ok_exists (mvmul K (of_list 0%Z [0; 1; 0; 0]%Z))) as [y Hy];
    [reveal HK; evaluate_at H; reflexivity|].
  exists sys, K, y. split; [exact H|]. split; [exact HK|].
  split; [reveal HK; evaluate_at H; reflexivity|].
  split; [exact Hy|].
  split; [reveal Hy; reveal HK; evaluate_at H; reflexivity|].
  evaluate_at H; reflexivity.
Qed.

(** ** The call *)

Section RunFacts.
Context {R : Type} {SR : Scalar R}.
Variable lu : SparseLU R.
Variable inp : Input R.

(** The call as a function of the answers of the solver, once the system
    is assembled. *)
Lemma parameterize_assembled (sys : System R) (uv0 : Matrix R) :
  assemble inp = Ok sys ->
  parameterize lu inp uv0
  = let A := sys_A sys in
    let b := sys_b sys in
    let t1 := [EvPrint "Computing A..."; EvFactorize A] in
    if negb (lu_compute lu A) then
      mkRun ComputeFailed uv0 (t1 ++ [EvPrint "Compute failed!!!"])
    else
      let t2 := t1 ++ [EvPrint "Computing A done!"] in
      if negb (rows A =? size b) then mkRun Aborted uv0 t2
      else
        let t3 := t2 ++ [EvSolve A b] in
        if negb (snd (lu_solve lu A b)) then
          mkRun SolveFailed uv0 (t3 ++ [EvPrint "Solving failed!!!"])
        else
          match mvmul (vt2cMat inp) (solution lu A b) with
          | AssertFail => mkRun Aborted uv0 t3
          | Ok u => mkRun Success (as_column u) t3
          end.
Proof.
  intros H; unfold parameterize; rewrite H; reflexivity.
Qed.

(** A successful call went through every size check. *)
Lemma success_inv (uv0 : Matrix R) :
  status (parameterize lu inp uv0) = Success ->
  exists sys u,
    assemble inp = Ok sys /\
    rows (sys_A sys) = size (sys_b sys) /\
    mvmul (vt2cMat inp) (solution lu (sys_A sys) (sys_b sys)) = Ok u /\
    parameterize lu inp uv0
    = mkRun Success (as_column u)
        [EvPrint "Computing A..."; EvFactorize (sys_A sys);
         EvPrint "Computing A done!"; EvSolve (sys_A sys) (sys_b sys)].
Proof.
  destruct (assemble inp) as [sys|] eqn:H.
  - rewrite (parameterize_assembled uv0 H); cbv zeta.
    destruct (lu_compute lu (sys_A sys)); cbn [negb]; [|discriminate].
    destruct (rows (sys_A sys) =? size (sys_b sys)) eqn:Hd; cbn [negb];
      [|discriminate].
    destruct (snd (lu_solve lu (sys_A sys) (sys_b sys))); cbn [negb];
      [|discriminate].
    destruct (mvmul (vt2cMat inp) (solution lu (sys_A sys) (sys_b sys)))
      as [u|] eqn:Hu; [|discriminate].
    intros _. exists sys, u.
    apply Nat.eqb_eq in Hd. repeat split; auto.
  - unfold parameterize; rewrite H; discriminate.
Qed.

(** The sizes that meet at the solver and at the projection. *)
Lemma solver_sizes (sys : System R) :
  assemble inp = Ok sys ->
  rows (sys_A sys) = corner_dim inp + rows (constraintMat inp) /\
  cols (sys_A sys) = corner_dim inp + rows (constraintMat inp) /\
  size (sys_b sys) = cols (vt2cMat inp) + rows (constraintMat inp) /\
  size (solution lu (sys_A sys) (sys_b sys))
  = corner_dim inp + rows (constraintMat inp) /\
  rows (vt2cMat inp) = corner_dim inp.
Proof.
  intros H.
  destruct (assemble_shape _ H) as (_ & HP & _ & _ & _ & _ & HA & Hb).
  unfold solution; rewrite HA; cbn [empty_sparse rows cols size].
  repeat split; assumption.
Qed.

Lemma mvmul_is_ok (A : Matrix R) (v : Vector R) :
  is_ok (mvmul A v) = true <-> cols A = size v.
Proof.
  unfold mvmul.
  destruct (Nat.eqb_spec (cols A) (size v)) as [E|E]; cbn; split;
    auto; discriminate.
Qed.

Lemma mvmul_Ok (A : Matrix R) (v u : Vector R) :
  mvmul A v = Ok u ->
  cols A = size v /\
  u = mkVector (rows A)
        (fun i => sum_upto (cols A) (fun k => s_mul (coeff A i k) (vcoeff v k))).
Proof.
  unfold mvmul; intros H. unbind.
  match goal with E : (_ =? _) = true |- _ => apply Nat.eqb_eq in E end.
  split; [assumption | reflexivity].
Qed.

(** If the solver rejects matrices with a zero column, every call on a
    system with at least one unknown ends at the factorization. *)
Lemma factorization_fails (sys : System R) (uv0 : Matrix R) :
  rejects_zero_column lu ->
  assemble inp = Ok sys ->
  0 < corner_dim inp + rows (constraintMat inp) ->
  parameterize lu inp uv0
  = mkRun ComputeFailed uv0
      [EvPrint "Computing A..."; EvFactorize (sys_A sys);
       EvPrint "Compute failed!!!"].
Proof.
  intros Hlu H Hpos.
  rewrite (parameterize_assembled uv0 H); cbv zeta.
  destruct (@augmented_matrix_never_filled R SR inp sys H) as (_ & Hc & Hz).
  rewrite (Hlu (sys_A sys) 0); [reflexivity | lia | intros; apply Hz].
Qed.

End RunFacts.

(** C9.  The sizes the call relies on.  [A] is square of size
    [3*N*#F + #constraints] and [b] has [cols P + #constraints] entries, so
    the size check of the solve holds exactly when [cols P = 3*N*#F]; the
    solution has [3*N*#F + #constraints] entries, so the size check of the
    final product [P * x] holds exactly when
    [cols P = 3*N*#F + #constraints]; both hold only when the constraint
    matrix has no row and [P] is square of size [3*N*#F]. *)
Theorem dimension_requirements {R : Type} {SR : Scalar R}
        (lu : SparseLU R) (inp : Input R) (sys : System R) :
  assemble inp = Ok sys ->
  let n := 3 * (cols (rawField inp) / 3) * rows (wholeF inp) in
  let m := rows (constraintMat inp) in
  let P := vt2cMat inp in
  let x := solution lu (sys_A sys) (sys_b sys) in
  (rows (sys_A sys) = n + m /\ cols (sys_A sys) = n + m) /\
  size (sys_b sys) = cols P + m /\
  size x = n + m /\
  ((rows (sys_A sys) =? size (sys_b sys)) = true <-> cols P = n) /\
  (is_ok (mvmul P x) = true <-> cols P = n + m) /\
  ((rows (sys_A sys) =? size (sys_b sys)) = true /\ is_ok (mvmul P x) = true
   -> m = 0 /\ rows P = n /\ cols P = n) /\
  (forall uv0, status (parameterize lu inp uv0) = Success ->
               m = 0 /\ rows P = n /\ cols P = n).
Proof.
  intros H; cbv zeta.
  destruct (@solver_sizes R SR lu inp sys H) as (HAr & HAc & Hb & Hx & HP).
  unfold corner_dim, branches in *.
  rewrite Nat.eqb_eq, mvmul_is_ok, HAr, Hb, Hx.
  split; [split; [reflexivity | assumption]|].
  split; [reflexivity|]. split; [reflexivity|].
  split; [lia|]. split; [lia|]. split; [lia|].
  intros uv0 Hs.
  destruct (@success_inv R SR lu inp uv0 Hs) as (sys' & u & H' & Hd & Hu & _).
  rewrite H in H'; injection H' as <-.
  apply mvmul_Ok in Hu; destruct Hu as (Hu & _).
  rewrite Hx in Hu. lia.
Qed.

Lemma dimension_requirements_witness :
  exists sys,
    assemble free_triangle = Ok sys /\
    ((rows (sys_A sys) =? size (sys_b sys)) = true <->
     cols (vt2cMat free_triangle) = 3) /\
    (is_ok (mvmul (vt2cMat free_triangle)
                  (solution column_check_lu (sys_A sys) (sys_b sys))) = true <->
     cols (vt2cMat free_triangle) = 3 + 0).
Proof.
  destruct (is_ok_exists (assemble free_triangle)) as [sys H];
    [vm_compute; reflexivity|].
  exists sys; split; [exact H|].
  destruct (@dimension_requirements Z _ column_check_lu free_triangle sys H)
    as (_ & _ & _ & Hsolve & Hproj & _).
  split; [exact Hsolve | exact Hproj].
Defined.





(** The documented scenario with a solver that answers [(10, 11, 12, 13)]:
    the factorization and the solve are reported as successful, the product
    of [P] with the first three entries would be [(10, 11, 12)], and the
    product the routine asks for, of a matrix of three columns with a
    vector of four entries, is not defined. *)
Lemma unit_triangle_projection :
  exists sys u,
    assemble unit_triangle = Ok sys /\
    to_list (solution counting_lu (sys_A sys) (sys_b sys))
    = [10; 11; 12; 13]%Z /\
    cols (vt2cMat unit_triangle) = 3 /\
    mvmul (vt2cMat unit_triangle)
          (head 3 (solution counting_lu (sys_A sys) (sys_b sys))) = Ok u /\
    to_list u = [10; 11; 12]%Z /\
    is_ok (mvmul (vt2cMat unit_triangle)
                 (solution counting_lu (sys_A sys) (sys_b sys))) = false /\
    List.length (trace (parameterize counting_lu unit_triangle stale_uv)) = 4.
Proof.
  destruct (is_ok_exists (assemble unit_triangle)) as [sys H];
    [vm_compute; reflexivity|].
  destruct (is_ok_exists
              (mvmul (vt2cMat unit_triangle)
                     (head 3 (solution counting_lu (sys_A sys) (sys_b sys)))))
    as [u Hu]; [evaluate_at H; reflexivity|].
  exists sys, u. split; [exact H|].
  split; [evaluate_at H; reflexivity|].
  split; [reflexivity|].
  split; [exact Hu|].
  split; [reveal Hu; evaluate_at H; reflexivity|].
  split; [evaluate_at H; reflexivity|].
  vm_compute; reflexivity.
Qed.

(** Without constraint rows the same solver gives a successful call, whose
    output is the column [P * x]. *)
Lemma free_triangle_projection :
  status (parameterize counting_lu free_triangle stale_uv) = Success /\
  column_to_list (cornerUV (parameterize counting_lu free_triangle stale_uv))
  = [10; 11; 12]%Z /\
  cols (cornerUV (parameterize counting_lu free_triangle stale_uv)) = 1.
Proof.
  repeat split; vm_compute; reflexivity.
Qed.

(** C6.  Failure of the solver.  Once the system is assembled, if the
    factorization of [A] is reported as failed, or it succeeds and the
    solve that follows is reported as failed, the call returns with the
    output argument as it was, after one factorization, at most one solve,
    and one message of failure. *)
Theorem solver_failure_leaves_output {R : Type} {SR : Scalar R}
        (lu : SparseLU R) (inp : Input R) (sys : System R) (uv0 : Matrix R) :
  assemble inp = Ok sys ->
  lu_compute lu (sys_A sys) = false \/
  (lu_compute lu (sys_A sys) = true /\
   rows (sys_A sys) = size (sys_b sys) /\
   snd (lu_solve lu (sys_A sys) (sys_b sys)) = false) ->
  cornerUV (parameterize lu inp uv0) = uv0 /\
  parameterize lu inp uv0
  = if lu_compute lu (sys_A sys)
    then mkRun SolveFailed uv0
           [EvPrint "Computing A..."; EvFactorize (sys_A sys);
            EvPrint "Computing A done!"; EvSolve (sys_A sys) (sys_b sys);
            EvPrint "Solving failed!!!"]
    else mkRun ComputeFailed uv0
           [EvPrint "Computing A..."; EvFactorize (sys_A sys);
            EvPrint "Compute failed!!!"].
Proof.
  intros H Hfail.
  rewrite (@parameterize_assembled R SR lu inp sys uv0 H); cbv zeta.
  destruct Hfail as [Hc | (Hc & Hd & Hs)]; rewrite Hc; cbn [negb].
  - split; reflexivity.
  - apply Nat.eqb_eq in Hd; rewrite Hd, Hs; cbn [negb].
    split; reflexivity.
Qed.

Lemma solver_failure_leaves_output_witness :
  column_to_list (cornerUV (parameterize column_check_lu unit_triangle stale_uv))
  = [7; 9]%Z /\
  column_to_list (cornerUV (parameterize failing_solve_lu free_triangle stale_uv))
  = [7; 9]%Z.
Proof.
  split.
  - destruct (is_ok_exists (assemble unit_triangle)) as [sys H];
      [vm_compute; reflexivity|].
    destruct (@solver_failure_leaves_output Z _ column_check_lu unit_triangle
                sys stale_uv H) as (-> & _); [|reflexivity].
    left. evaluate_at H. reflexivity.
  - destruct (is_ok_exists (assemble free_triangle)) as [sys H];
      [vm_compute; reflexivity|].
    destruct (@solver_failure_leaves_output Z _ failing_solve_lu free_triangle
                sys stale_uv H) as (-> & _); [|reflexivity].
    right. split; [reflexivity|]. split; [|reflexivity].
    evaluate_at H. reflexivity.
Defined.

(** The stand-in solver refuses every matrix with a zero column. *)
Lemma column_check_lu_rejects : rejects_zero_column column_check_lu.
Proof.
  intros A j Hj Hz; cbn.
  apply negb_false_iff, existsb_exists.
  exists j; split; [apply in_seq; lia|].
  apply forallb_forall; intros i Hi. apply in_seq in Hi.
  apply Z.eqb_eq, Hz; lia.
Qed.

(** C7.  The documented scenario (one triangle, [N = 1], field (1,0,0),
    unit weights, identity corner map, corner 0 pinned).  The matrix given
    to the solver is the empty 4x4 matrix; with a solver that reports a
    matrix with a zero column as not factorizable, the call prints the
    failure of the factorization and returns without touching the
    output. *)
Theorem unit_triangle_call_fails (lu : SparseLU Z) (uv0 : Matrix Z) :
  rejects_zero_column lu ->
  status (parameterize lu unit_triangle uv0) = ComputeFailed /\
  cornerUV (parameterize lu unit_triangle uv0) = uv0 /\
  trace (parameterize lu unit_triangle uv0)
  = [EvPrint "Computing A..."; EvFactorize (empty_sparse 4 4);
     EvPrint "Compute failed!!!"].
Proof.
  intros Hlu.
  destruct (is_ok_exists (assemble unit_triangle)) as [sys H];
    [vm_compute; reflexivity|].
  rewrite (@factorization_fails Z _ lu unit_triangle sys uv0 Hlu H)
    by (vm_compute; lia).
  destruct (assemble_shape _ H) as (_ & _ & _ & _ & _ & _ & -> & _).
  repeat split.
Qed.

Lemma unit_triangle_call_fails_witness :
  rejects_zero_column column_check_lu /\
  status (parameterize column_check_lu unit_triangle stale_uv) = ComputeFailed /\
  cornerUV (parameterize column_check_lu unit_triangle stale_uv) = stale_uv.
Proof.
  split; [exact column_check_lu_rejects|].
  destruct (@unit_triangle_call_fails column_check_lu stale_uv
              column_check_lu_rejects) as (Hs & Hu & _).
  split; [exact Hs | exact Hu].
Defined.

(** The system the solver is given on that scenario has no solution at
    all: the product of [A] with any vector is zero, and [b] is not. *)
Lemma unit_triangle_system_unsolvable :
  exists sys,
    assemble unit_triangle = Ok sys /\
    to_list (sys_b sys) = [-1; 2; -1; 0]%Z /\
    forall x y, mvmul (sys_A sys) x = Ok y -> to_list y = [0; 0; 0; 0]%Z.
Proof.
  destruct (is_ok_exists (assemble unit_triangle)) as [sys H];
    [vm_compute; reflexivity|].
  exists sys; split; [exact H|].
  split; [evaluate_at H; reflexivity|].
  intros x y Hy.
  destruct (assemble_shape _ H) as (_ & _ & _ & _ & _ & _ & HA & _).
  rewrite HA in Hy. apply mvmul_Ok in Hy; destruct Hy as (_ & ->).
  reflexivity.
Qed.

(** ** Which part of the field is read *)

Section FieldColumns.
Context {R : Type} {SR : Scalar R}.
Variable inp : Input R.
Variable X : Matrix R.
Hypothesis same_rows : rows X = rows (rawField inp).
Hypothesis same_cols : cols X = cols (rawField inp).
Hypothesis same_branches :
  forall i j, j < 3 * (cols (rawField inp) / 3) ->
              coeff X i j = coeff (rawField inp) i j.

Lemma branches_with_field : branches (with_field inp X) = branches inp.
Proof.
  unfold branches, with_field; cbn [rawField]. rewrite same_cols; reflexivity.
Qed.

Lemma block13_with_field (i k : nat) :
  k < branches inp ->
  block13 X i (3 * k) = block13 (rawField inp) i (3 * k).
Proof.
  unfold branches; intros Hk.
  unfold block13.
  rewrite same_rows, same_cols.
  rewrite !same_branches by lia.
  reflexivity.
Qed.

Lemma corner_step_with_field (i j k : nat) (st : Builder R) :
  k < branches inp ->
  corner_step (with_field inp X) i j k st = corner_step inp i j k st.
Proof.
  intros Hk. unfold corner_step.
  rewrite branches_with_field.
  cbn [with_field wholeV wholeF FE rawField edgeWeights].
  rewrite (block13_with_field i Hk).
  reflexivity.
Qed.

Lemma build_with_field : build (with_field inp X) = build inp.
Proof.
  rewrite !build_flat.
  rewrite branches_with_field.
  replace (builder_init (with_field inp X)) with (builder_init inp).
  - apply for_each_ext_in; intros [[i j] k] s Hin.
    apply in_corners in Hin. apply corner_step_with_field; tauto.
  - unfold builder_init, corner_dim. rewrite branches_with_field. reflexivity.
Qed.

Lemma assemble_with_field : assemble (with_field inp X) = assemble inp.
Proof.
  unfold assemble.
  rewrite build_with_field.
  replace (corner_dim (with_field inp X)) with (corner_dim inp)
    by (unfold corner_dim; rewrite branches_with_field; reflexivity).
  reflexivity.
Qed.

Lemma parameterize_with_field (lu : SparseLU R) (uv0 : Matrix R) :
  parameterize lu (with_field inp X) uv0 = parameterize lu inp uv0.
Proof.
  unfold parameterize. rewrite assemble_with_field. reflexivity.
Qed.

End FieldColumns.

(** C10.  The branch count is [cols(rawField) / 3], rounded down, and the
    call reads the field only in its first [3*N] columns: a call on the
    same input with another field of the same shape that agrees with the
    first on the columns below [3 * (cols / 3)] gives the same status, the
    same corner UV and the same sequence of events. *)
Theorem field_read_below_3N {R : Type} {SR : Scalar R}
        (lu : SparseLU R) (inp : Input R) (X : Matrix R) (uv0 : Matrix R) :
  rows X = rows (rawField inp) ->
  cols X = cols (rawField inp) ->
  (forall i j, j < 3 * (cols (rawField inp) / 3) ->
               coeff X i j = coeff (rawField inp) i j) ->
  branches inp = cols (rawField inp) / 3 /\
  branches (with_field inp X) = branches inp /\
  parameterize lu (with_field inp X) uv0 = parameterize lu inp uv0.
Proof.
  intros Hr Hc Hx.
  split; [reflexivity|].
  split.
  - apply branches_with_field; assumption.
  - apply parameterize_with_field; assumption.
Qed.

Lemma field_read_below_3N_witness :
  coeff (padded_field 5) 0 3 <> coeff (padded_field 9) 0 3 /\
  parameterize failing_solve_lu (padded_triangle 5) stale_uv
  = parameterize failing_solve_lu (padded_triangle 9) stale_uv.
Proof.
  split; [discriminate|].
  apply (@field_read_below_3N Z _ failing_solve_lu (padded_triangle 9)
           (padded_field 5) stale_uv).
  - reflexivity.
  - reflexivity.
  - intros i j Hj. change (j < 3) in Hj.
    destruct i as [|[|i]]; destruct j as [|[|[|j]]]; try reflexivity; lia.
Defined.

(* ================================================================== *)
(** * Further properties of the routine *)
(* ================================================================== *)

(** ** The assembled system in closed form *)

Section ClosedForm.
Context {R : Type} {SR : Scalar R}.
Variable inp : Input R.

Lemma assemble_build_fail :
  build inp = AssertFail -> assemble inp = AssertFail.
Proof.
  intros H; unfold assemble; rewrite H; reflexivity.
Qed.

(** After the loop only one size check can fail: the corner map must have
    [3*N*#F] rows. *)
Lemma assemble_closed (st : Builder R) :
  build inp = Ok st ->
  assemble inp
  = if rows (vt2cMat inp) =? corner_dim inp
    then Ok (system_of inp st) else AssertFail.
Proof.
  intros Hst.
  destruct (build_lists _ Hst) as (Ed0 & EM1 & Esz).
  pose proof (M1_triplets_in_range inp) as HM1.
  pose proof (d0_triplets_in_range (R := R) (rows (wholeF inp)) (branches inp))
    as Hd0.
  rewrite <- Ed0 in Hd0. rewrite <- EM1 in HM1.
  fold (corner_dim inp) in Hd0.
  unfold assemble. rewrite Hst; cbn [bind].
  unfold setFromTriplets.
  rewrite (eigen_assert_true Hd0); cbn [bind].
  rewrite (eigen_assert_true HM1); cbn [bind].
  unfold mmul, mvmul, segment_assign; cbn [transpose rows cols size Zero bind].
  destruct (rows (vt2cMat inp) =? corner_dim inp) eqn:E;
    cbn [eigen_assert bind]; [|reflexivity].
  assert (Hle : (cols (vt2cMat inp)
                 <=? cols (vt2cMat inp) + rows (constraintMat inp)) = true)
    by (apply Nat.leb_le; lia).
  assert (E' : (corner_dim inp =? rows (vt2cMat inp)) = true)
    by (rewrite Nat.eqb_sym; exact E).
  repeat (rewrite ?Nat.eqb_refl, ?Esz, ?Hle, ?E';
          cbn [eigen_assert bind rows cols size]).
  reflexivity.
Qed.

End ClosedForm.

(** ** Indices *)

(** X1.  For every face and branch, the column computed for the [+1] entry
    equals [3*N*i + N*((j+1) mod 3) + k] at all three corners exactly when
    there is at most one branch. *)
Theorem wrap_formulas_agree_iff (N i k : nat) :
  (forall j, j < 3 -> plus_col N i j k = plus_col_spec N i j k) <-> N <= 1.
Proof.
  unfold plus_col, plus_col_spec; split.
  - intros H. assert (H13 : 1 < 3) by lia. assert (H1 := H 1 H13).
    change ((1 + 1) mod 3) with 2 in H1.
    assert (Hm : (N * (1 + 1)) mod 3 < 3) by (apply Nat.mod_upper_bound; lia).
    lia.
  - intros HN j Hj. destruct N as [|[|N]]; [| |lia].
    + reflexivity.
    + rewrite !Nat.mul_1_l. reflexivity.
Qed.

(** X2.  When the loop ends, every triplet it pushed, for the operator and
    for the weights, has its row and its column below [3*N*#F]; this covers
    the column obtained through the remainder. *)
Theorem loop_triplets_in_range {R : Type} {SR : Scalar R}
        (inp : Input R) (st : Builder R) (t : Triplet R) :
  build inp = Ok st ->
  In t (d0Triplets st ++ M1Triplets st) ->
  t_row t < 3 * (cols (rawField inp) / 3) * rows (wholeF inp) /\
  t_col t < 3 * (cols (rawField inp) / 3) * rows (wholeF inp).
Proof.
  intros H Hin.
  destruct (build_lists _ H) as (Ed0 & EM1 & _).
  pose proof (M1_triplets_in_range inp) as HM1.
  pose proof (d0_triplets_in_range (R := R) (rows (wholeF inp)) (branches inp))
    as Hd0.
  rewrite <- Ed0 in Hd0. rewrite <- EM1 in HM1.
  rewrite forallb_forall in Hd0, HM1.
  apply in_app_or in Hin.
  assert (Hr : triplet_in_range (corner_dim inp) (corner_dim inp) t = true)
    by (destruct Hin as [Hin|Hin]; [apply Hd0 | apply HM1]; exact Hin).
  unfold triplet_in_range in Hr. apply andb_prop in Hr. destruct Hr as (Hr & Hc).
  apply Nat.ltb_lt in Hr, Hc. split; assumption.
Qed.

Lemma loop_triplets_in_range_witness :
  exists st,
    build two_branch_triangle = Ok st /\
    In (mkTriplet 2 1 1%Z) (d0Triplets st) /\
    (2 < 6 /\ 1 < 6).
Proof.
  destruct (is_ok_exists (build two_branch_triangle)) as [st H];
    [vm_compute; reflexivity|].
  assert (Hin : In (mkTriplet 2 1 1%Z) (d0Triplets st))
    by (evaluate_at H; tauto).
  exists st; split; [exact H|]. split; [exact Hin|].
  apply (@loop_triplets_in_range Z _ two_branch_triangle st (mkTriplet 2 1 1%Z) H).
  apply in_or_app; left; exact Hin.
Defined.

(** X3.  The passes of the loop address the rows [0, 1, ..., 3*N*#F - 1]
    once each and in this order: the weight triplets lie on the diagonal,
    one per row, and the operator receives two triplets per row. *)
Theorem loop_visits_rows_in_order {R : Type} {SR : Scalar R}
        (inp : Input R) (st : Builder R) :
  build inp = Ok st ->
  map (@t_row R) (M1Triplets st)
  = seq 0 (3 * (cols (rawField inp) / 3) * rows (wholeF inp)) /\
  map (@t_col R) (M1Triplets st) = map (@t_row R) (M1Triplets st) /\
  map (@t_row R) (d0Triplets st)
  = flat_map (fun r => [r; r])
             (seq 0 (3 * (cols (rawField inp) / 3) * rows (wholeF inp))).
Proof.
  intros H.
  destruct (build_lists _ H) as (Ed0 & EM1 & _).
  rewrite Ed0, EM1, !map_map.
  fold (branches inp).
  rewrite <- (corners_rows (rows (wholeF inp)) (branches inp)).
  split; [|split].
  - apply map_ext; intros [[i j] k]; reflexivity.
  - apply map_ext; intros [[i j] k]; reflexivity.
  - generalize (corners (rows (wholeF inp)) (branches inp)) as l.
    induction l as [|[[i j] k] l IH]; [reflexivity|].
    cbn [flat_map map app d0_pair t_row]. rewrite <- IH. reflexivity.
Qed.

Lemma loop_visits_rows_in_order_witness :
  exists st,
    build two_faces = Ok st /\
    map (@t_row Z) (M1Triplets st) = [0; 1; 2; 3; 4; 5].
Proof.
  destruct (is_ok_exists (build two_faces)) as [st H];
    [vm_compute; reflexivity|].
  exists st; split; [exact H|].
  destruct (@loop_visits_rows_in_order Z _ two_faces st H) as (Hrows & _).
  rewrite Hrows. reflexivity.
Defined.

(** ** Inputs that stop the call, and inputs that do not *)

(** X4.  A corner map whose row count is not [3*N*#F] stops the call at the
    first product: nothing is printed, no solver is called and the output
    is not written. *)
Theorem corner_map_rows_mismatch {R : Type} {SR : Scalar R}
        (lu : SparseLU R) (inp : Input R) (uv0 : Matrix R) :
  rows (vt2cMat inp) <> 3 * (cols (rawField inp) / 3) * rows (wholeF inp) ->
  parameterize lu inp uv0 = mkRun Aborted uv0 [].
Proof.
  intros Hne. unfold parameterize.
  destruct (build inp) as [st|] eqn:Hst.
  - rewrite (assemble_closed _ Hst).
    destruct (Nat.eqb_spec (rows (vt2cMat inp)) (corner_dim inp)) as [E|_];
      [exfalso; apply Hne; exact E | reflexivity].
  - rewrite (assemble_build_fail _ Hst). reflexivity.
Qed.

Lemma corner_map_rows_mismatch_witness :
  rows (vt2cMat short_map_triangle) = 2 /\
  parameterize accepting_lu short_map_triangle stale_uv
  = mkRun Aborted stale_uv [].
Proof.
  split; [reflexivity|].
  apply (@corner_map_rows_mismatch Z _ accepting_lu short_map_triangle stale_uv).
  cbn. lia.
Defined.

Lemma corners_no_branch (nF : nat) : corners nF 0 = [].
Proof.
  unfold corners. induction (seq 0 nF) as [|i l IH]; [reflexivity|].
  cbn [flat_map]. rewrite IH. reflexivity.
Qed.

(** X5.  With fewer than three field columns, or without faces, the loop
    makes no pass: whatever the vertex and edge indices are, it ends with
    empty triplet lists and an empty [gamma], and the system is assembled
    exactly when the corner map has no row. *)
Theorem loop_without_passes {R : Type} {SR : Scalar R} (inp : Input R) :
  cols (rawField inp) < 3 \/ rows (wholeF inp) = 0 ->
  build inp = Ok (mkBuilder [] [] (Zero 0)) /\
  (is_ok (assemble inp) = true <-> rows (vt2cMat inp) = 0).
Proof.
  intros Hempty.
  assert (Hn : corner_dim inp = 0).
  { unfold corner_dim, branches.
    destruct Hempty as [Hc | Hf].
    - rewrite (Nat.div_small _ _ Hc). reflexivity.
    - rewrite Hf. lia. }
  assert (Hb : build inp = Ok (mkBuilder [] [] (Zero 0))).
  { rewrite build_flat. unfold builder_init. rewrite Hn.
    destruct Hempty as [Hc | Hf].
    - unfold branches. rewrite (Nat.div_small _ _ Hc), corners_no_branch.
      reflexivity.
    - rewrite Hf. reflexivity. }
  split; [exact Hb|].
  rewrite (assemble_closed _ Hb), Hn.
  destruct (Nat.eqb_spec (rows (vt2cMat inp)) 0) as [E|E]; cbn [is_ok];
    split; auto; discriminate.
Qed.

Lemma loop_without_passes_witness :
  coeff (wholeF fieldless_input) 0 1 = (-1)%Z /\
  build fieldless_input = Ok (mkBuilder [] [] (Zero 0)) /\
  is_ok (assemble fieldless_input) = true.
Proof.
  split; [reflexivity|].
  destruct (@loop_without_passes Z _ fieldless_input) as (Hb & Ha).
  - left. cbn. lia.
  - split; [exact Hb|]. apply Ha. reflexivity.
Defined.

(** X6.  On an input of the documented shapes ([#V x 3] positions, faces
    and face edges with three valid indices per row, one field row per
    face, a corner map of [3*N*#F] rows) no size or index check fails
    before the solver: the call announces the factorization and hands [A]
    to the solver. *)
Theorem well_formed_reaches_solver {R : Type} {SR : Scalar R}
        (lu : SparseLU R) (inp : Input R) (uv0 : Matrix R) :
  well_formed inp ->
  exists sys rest,
    assemble inp = Ok sys /\
    trace (parameterize lu inp uv0)
    = EvPrint "Computing A..." :: EvFactorize (sys_A sys) :: rest.
Proof.
  intros WF.
  destruct (assemble_total WF) as (sys & H).
  exists sys.
  rewrite (@parameterize_assembled R SR lu inp sys uv0 H); cbv zeta.
  destruct (lu_compute lu (sys_A sys)); cbn [negb];
    [|eexists; split; [exact H | reflexivity]].
  destruct (rows (sys_A sys) =? size (sys_b sys)); cbn [negb];
    [|eexists; split; [exact H | reflexivity]].
  destruct (snd (lu_solve lu (sys_A sys) (sys_b sys))); cbn [negb];
    [|eexists; split; [exact H | reflexivity]].
  destruct (mvmul (vt2cMat inp) (solution lu (sys_A sys) (sys_b sys)));
    eexists; (split; [exact H | reflexivity]).
Qed.

Lemma two_faces_well_formed : well_formed two_faces.
Proof.
  unfold well_formed; cbn.
  repeat split; try lia;
    destruct i as [|[|i]]; try lia;
    destruct j as [|[|[|j]]]; cbn; lia.
Qed.

Lemma well_formed_reaches_solver_witness :
  well_formed two_faces /\
  exists sys rest,
    assemble two_faces = Ok sys /\
    trace (parameterize column_check_lu two_faces stale_uv)
    = EvPrint "Computing A..." :: EvFactorize (sys_A sys) :: rest.
Proof.
  split; [exact two_faces_well_formed|].
  exact (@well_formed_reaches_solver Z _ column_check_lu two_faces stale_uv
           two_faces_well_formed).
Defined.

(** ** The coefficients of the two matrices built from the loop *)

Section TripletSums.
Context {R : Type} {SR : Scalar R}.

Lemma triplet_fold_skip (r c : nat) (ts : list (Triplet R)) (acc : R) :
  (forall t, In t ts -> t_row t <> r \/ t_col t <> c) ->
  fold_left
    (fun acc t => if (t_row t =? r) && (t_col t =? c)
                  then s_add acc (t_value t) else acc) ts acc = acc.
Proof.
  revert acc; induction ts as [|t ts IH]; intros acc Hts; [reflexivity|].
  cbn [fold_left].
  replace ((t_row t =? r) && (t_col t =? c)) with false.
  - apply IH; intros t' Ht'; apply Hts; right; exact Ht'.
  - symmetry. apply andb_false_iff.
    destruct (Hts t (or_introl eq_refl)) as [H|H]; [left|right];
      apply Nat.eqb_neq; exact H.
Qed.

(** Only the triplets pushed for row [r] count in row [r]. *)
Lemma triplet_sum_block {X : Type} (g : X -> list (Triplet R)) (key : X -> nat)
      (l : list X) (p : X) (c : nat) :
  (forall x t, In t (g x) -> t_row t = key x) ->
  NoDup (map key l) -> In p l ->
  triplet_sum (flat_map g l) (key p) c = triplet_sum (g p) (key p) c.
Proof.
  intros Hkey ND Hp.
  apply in_split in Hp; destruct Hp as (l1 & l2 & ->).
  rewrite map_app in ND; cbn [map] in ND.
  pose proof (NoDup_remove_2 _ _ _ ND) as Hnot.
  assert (Hother : forall q, In q l1 \/ In q l2 -> key q <> key p).
  { intros q Hq E. apply Hnot. apply in_or_app.
    destruct Hq as [Hq|Hq]; [left|right]; rewrite <- E; apply in_map; exact Hq. }
  unfold triplet_sum.
  rewrite flat_map_app; cbn [flat_map].
  rewrite !fold_left_app.
  rewrite (@triplet_fold_skip (key p) c (flat_map g l1) s_zero).
  - apply triplet_fold_skip.
    intros t Ht. apply in_flat_map in Ht; destruct Ht as (q & Hq & Ht).
    left. rewrite (Hkey _ _ Ht). apply Hother; right; exact Hq.
  - intros t Ht. apply in_flat_map in Ht; destruct Ht as (q & Hq & Ht).
    left. rewrite (Hkey _ _ Ht). apply Hother; left; exact Hq.
Qed.

Lemma map_as_flat_map {X Y : Type} (f : X -> Y) (l : list X) :
  map f l = flat_map (fun x => [f x]) l.
Proof.
  induction l as [|x l IH]; [reflexivity|]. cbn. rewrite IH. reflexivity.
Qed.

Variable inp : Input R.

(** A system that is assembled is the one of the closed form. *)
Lemma assemble_system_of (sys : System R) :
  assemble inp = Ok sys ->
  exists st, build inp = Ok st /\ sys = system_of inp st.
Proof.
  intros H.
  destruct (build inp) as [st|] eqn:Hst.
  - exists st; split; [reflexivity|].
    rewrite (assemble_closed _ Hst) in H.
    destruct (rows (vt2cMat inp) =? corner_dim inp); [|discriminate].
    injection H as <-. reflexivity.
  - rewrite (assemble_build_fail _ Hst) in H. discriminate.
Qed.

End TripletSums.

(** X7.  The weight matrix is diagonal: every coefficient off the diagonal
    is zero, and the diagonal coefficient of the row of face [i], corner
    [j], branch [k] is the weight of edge [FE(i,j)] (added to the initial
    zero), the same for every branch. *)
Theorem weight_matrix_diagonal {R : Type} {SR : Scalar R}
        (inp : Input R) (sys : System R) :
  assemble inp = Ok sys ->
  (forall r c, r <> c -> coeff (sys_M1 sys) r c = s_zero) /\
  (forall i j k,
     i < rows (wholeF inp) -> j < 3 -> k < cols (rawField inp) / 3 ->
     let N := cols (rawField inp) / 3 in
     coeff (sys_M1 sys) (3 * N * i + N * j + k) (3 * N * i + N * j + k)
     = s_add s_zero (vcoeff (edgeWeights inp) (Z.to_nat (coeff (FE inp) i j)))).
Proof.
  intros H.
  destruct (assemble_system_of _ H) as (st & Hst & ->).
  destruct (build_lists _ Hst) as (_ & EM1 & _).
  cbn [system_of sys_M1 coeff]. rewrite EM1.
  split.
  - intros r c Hrc. unfold triplet_sum. apply triplet_fold_skip.
    intros t Ht. apply in_map_iff in Ht; destruct Ht as ([[i j] k] & <- & _).
    cbn [M1_entry t_row t_col].
    destruct (Nat.eq_dec (row_index (branches inp) i j k) r) as [<-|Hne];
      [right; exact Hrc | left; exact Hne].
  - intros i j k Hi Hj Hk; cbv zeta.
    rewrite map_as_flat_map.
    change (3 * (cols (rawField inp) / 3) * i + cols (rawField inp) / 3 * j + k)
      with (row_of (branches inp) (i, j, k)).
    rewrite (triplet_sum_block (fun x => [M1_entry inp x]) (row_of (branches inp))).
    + unfold triplet_sum; cbn [fold_left M1_entry t_row t_col t_value row_of].
      rewrite Nat.eqb_refl; reflexivity.
    + intros [[i' j'] k'] t [<- | []]; reflexivity.
    + apply corners_NoDup.
    + apply in_corners; auto.
Qed.

Lemma weight_matrix_diagonal_witness :
  exists sys,
    assemble two_faces = Ok sys /\
    coeff (sys_M1 sys) 4 4 = 4%Z /\
    coeff (sys_M1 sys) 4 1 = 0%Z.
Proof.
  destruct (is_ok_exists (assemble two_faces)) as [sys H];
    [vm_compute; reflexivity|].
  exists sys; split; [exact H|].
  destruct (@weight_matrix_diagonal Z _ two_faces sys H) as (Hoff & Hdiag).
  split.
  - assert (H1 : 1 < rows (wholeF two_faces)) by (cbn; lia).
    assert (H2 : 1 < 3) by lia.
    assert (H3 : 0 < cols (rawField two_faces) / 3) by (cbn; lia).
    exact (Hdiag 1 1 0 H1 H2 H3).
  - apply Hoff. lia.
Defined.

(** X8.  The row of the operator for face [i], corner [j], branch [k]
    receives the two triplets of its own pass and no other: [-1] on the
    diagonal and [+1] at column [3*N*i + (N*(j+1)) mod 3 + k], summed when
    the two columns coincide, and zero everywhere else. *)
Theorem operator_row {R : Type} {SR : Scalar R}
        (inp : Input R) (sys : System R) (i j k c : nat) :
  assemble inp = Ok sys ->
  i < rows (wholeF inp) -> j < 3 -> k < cols (rawField inp) / 3 ->
  let N := cols (rawField inp) / 3 in
  let r := 3 * N * i + N * j + k in
  let p := 3 * N * i + (N * (j + 1)) mod 3 + k in
  coeff (sys_d0 sys) r c
  = let a := if r =? c then s_add s_zero (s_opp s_one) else s_zero in
    if p =? c then s_add a s_one else a.
Proof.
  intros H Hi Hj Hk; cbv zeta.
  destruct (assemble_system_of _ H) as (st & Hst & ->).
  destruct (build_lists _ Hst) as (Ed0 & _ & _).
  cbn [system_of sys_d0 coeff]. rewrite Ed0.
  change (3 * (cols (rawField inp) / 3) * i + cols (rawField inp) / 3 * j + k)
    with (row_of (branches inp) (i, j, k)).
  rewrite (triplet_sum_block (d0_pair (branches inp)) (row_of (branches inp))).
  - unfold triplet_sum; cbn [fold_left d0_pair t_row t_col t_value row_of].
    rewrite Nat.eqb_refl; cbn [andb]. reflexivity.
  - intros [[i' j'] k'] t [<- | [<- | []]]; reflexivity.
  - apply corners_NoDup.
  - apply in_corners; auto.
Qed.

Lemma operator_row_witness :
  exists sys,
    assemble two_faces = Ok sys /\
    map (coeff (sys_d0 sys) 4) (seq 0 6) = [0; 0; 0; 0; -1; 1]%Z.
Proof.
  destruct (is_ok_exists (assemble two_faces)) as [sys H];
    [vm_compute; reflexivity|].
  exists sys; split; [exact H|].
  assert (H1 : 1 < rows (wholeF two_faces)) by (cbn; lia).
  assert (H2 : 1 < 3) by lia.
  assert (H3 : 0 < cols (rawField two_faces) / 3) by (cbn; lia).
  assert (Hrow : forall c,
             coeff (sys_d0 sys) 4 c
             = let a := if 4 =? c then (-1)%Z else 0%Z in
               if 5 =? c then (a + 1)%Z else a)
    by exact (fun c => @operator_row Z _ two_faces sys 1 1 0 c H H1 H2 H3).
  cbn [seq map]. rewrite !Hrow. reflexivity.
Defined.

(** ** What the outcome of a call does not depend on *)

Lemma for_each_rel {X S T : Type} (Rel : S -> T -> Prop) (l : list X)
      (f : X -> S -> checked S) (g : X -> T -> checked T) :
  (forall x s t, In x l -> Rel s t -> both_or_neither Rel (f x s) (g x t)) ->
  forall s t, Rel s t ->
              both_or_neither Rel (for_each l f s) (for_each l g t).
Proof.
  induction l as [|x l IH]; intros Hstep s t Hst; cbn [for_each].
  - exact Hst.
  - pose proof (Hstep x s t (or_introl eq_refl) Hst) as Hx.
    destruct (f x s) as [s'|], (g x t) as [t'|]; cbn [bind both_or_neither] in *;
      try contradiction; [|exact I].
    apply IH; [|exact Hx].
    intros y s0 t0 Hy; apply Hstep; right; exact Hy.
Qed.

Section Independence.
Context {R : Type} {SR : Scalar R}.
Variable lu : SparseLU R.
Variable inp : Input R.

(** Two loop states with the same operator triplets and the same [gamma]
    give the same matrix [A] and the same right-hand side. *)
Lemma system_of_same_operator (inp' : Input R) (st st' : Builder R) :
  vt2cMat inp' = vt2cMat inp ->
  corner_dim inp' = corner_dim inp ->
  rows (constraintMat inp') = rows (constraintMat inp) ->
  same_operator st st' ->
  sys_A (system_of inp' st') = sys_A (system_of inp st) /\
  sys_b (system_of inp' st') = sys_b (system_of inp st).
Proof.
  intros HP Hn HC (Hd & Hg).
  unfold system_of; cbn [sys_A sys_b].
  rewrite HP, Hn, HC, Hd, Hg. split; reflexivity.
Qed.

(** The call, from the result of the loop on. *)
Lemma parameterize_same_system (inp' : Input R) (uv0 : Matrix R) :
  vt2cMat inp' = vt2cMat inp ->
  corner_dim inp' = corner_dim inp ->
  rows (constraintMat inp') = rows (constraintMat inp) ->
  both_or_neither same_operator (build inp) (build inp') ->
  parameterize lu inp' uv0 = parameterize lu inp uv0.
Proof.
  intros HP Hn HC Hb. unfold parameterize.
  destruct (build inp) as [st|] eqn:Hst, (build inp') as [st'|] eqn:Hst';
    cbn [both_or_neither] in Hb; try contradiction.
  - rewrite (assemble_closed _ Hst), (assemble_closed _ Hst').
    rewrite HP, Hn.
    destruct (rows (vt2cMat inp) =? corner_dim inp); [|reflexivity].
    destruct (system_of_same_operator inp' HP Hn HC Hb) as (-> & ->).
    reflexivity.
  - rewrite (assemble_build_fail _ Hst), (assemble_build_fail _ Hst').
    reflexivity.
Qed.

Variable w : Vector R.
Hypothesis same_size : size w = size (edgeWeights inp).

Lemma corner_step_with_weights (i j k : nat) (st st' : Builder R) :
  same_operator st st' ->
  both_or_neither same_operator
    (corner_step inp i j k st) (corner_step (with_weights inp w) i j k st').
Proof.
  destruct st as [d0 m1 g], st' as [d0' m1' g'].
  intros (Hd & Hg); cbn [d0Triplets gamma] in Hd, Hg; subst d0' g'.
  unfold corner_step, branches.
  cbn [with_weights wholeV wholeF FE rawField edgeWeights d0Triplets
       M1Triplets gamma].
  repeat match goal with
         | |- both_or_neither _ (bind ?m _) (bind ?m _) =>
           destruct m; cbn [bind both_or_neither]; [|exact I]
         end.
  unfold vat. rewrite same_size.
  match goal with
  | |- context [eigen_assert ?c] => destruct (eigen_assert c)
  end; cbn [bind both_or_neither]; [|exact I].
  split; reflexivity.
Qed.

Lemma build_with_weights :
  both_or_neither same_operator (build inp) (build (with_weights inp w)).
Proof.
  rewrite !build_flat.
  apply for_each_rel.
  - intros [[i j] k] s t _ Hst. apply corner_step_with_weights; exact Hst.
  - split; reflexivity.
Qed.

End Independence.

(** X9.  The values of the edge weights never reach the solver or the
    output: a call with other weights, as many of them, has the same
    status, the same corner UV and the same sequence of events. *)
Theorem call_ignores_weight_values {R : Type} {SR : Scalar R}
        (lu : SparseLU R) (inp : Input R) (w : Vector R) (uv0 : Matrix R) :
  size w = size (edgeWeights inp) ->
  parameterize lu (with_weights inp w) uv0 = parameterize lu inp uv0.
Proof.
  intros Hw.
  apply parameterize_same_system; try reflexivity.
  apply build_with_weights; exact Hw.
Qed.

Lemma call_ignores_weight_values_witness :
  to_list (edgeWeights two_faces) = [1; 2; 3; 4; 5]%Z /\
  parameterize failing_solve_lu
    (with_weights two_faces (of_list 0%Z [9; 0; 7; 7; 2]%Z)) stale_uv
  = parameterize failing_solve_lu two_faces stale_uv.
Proof.
  split; [reflexivity|].
  apply (@call_ignores_weight_values Z _ failing_solve_lu two_faces).
  reflexivity.
Defined.

(** X10.  Of the constraint matrix only the number of rows reaches the
    solver or the output: a call with any other constraint matrix of as
    many rows has the same status, the same corner UV and the same sequence
    of events. *)
Theorem call_ignores_constraint_values {R : Type} {SR : Scalar R}
        (lu : SparseLU R) (inp : Input R) (C : Matrix R) (uv0 : Matrix R) :
  rows C = rows (constraintMat inp) ->
  parameterize lu (with_constraints inp C) uv0 = parameterize lu inp uv0.
Proof.
  intros HC.
  apply parameterize_same_system; try reflexivity; try exact HC.
  change (build (with_constraints inp C)) with (build inp).
  destruct (build inp); cbn [both_or_neither]; [split; reflexivity | exact I].
Qed.

Lemma call_ignores_constraint_values_witness :
  parameterize failing_solve_lu
    (with_constraints two_faces (of_rows 0%Z 1 4 [[0; 5; -3; 2]]%Z)) stale_uv
  = parameterize failing_solve_lu two_faces stale_uv.
Proof.
  apply (@call_ignores_constraint_values Z _ failing_solve_lu two_faces).
  reflexivity.
Defined.

(** ** Exact arithmetic *)

Lemma sum_upto_S {R : Type} {SR : Scalar R} (n : nat) (f : nat -> R) :
  sum_upto (S n) f = s_add (sum_upto n f) (f n).
Proof.
  unfold sum_upto. rewrite seq_S, fold_left_app. reflexivity.
Qed.

Lemma sum_upto_ext {R : Type} {SR : Scalar R} (n : nat) (f g : nat -> R) :
  (forall k, k < n -> f k = g k) -> sum_upto n f = sum_upto n g.
Proof.
  induction n as [|n IH]; intros H; [reflexivity|].
  rewrite !sum_upto_S, IH, (H n) by auto with arith. reflexivity.
Qed.

Lemma exact_arithmetic_Z : exact_arithmetic Scalar_Z.
Proof.
  exact InitialRing.Zth.
Qed.

Section Exact.
Context {R : Type} {SR : Scalar R}.
Hypothesis exact : exact_arithmetic SR.

Add Ring scalar_ring : (exact : ring_theory s_zero s_one s_add s_mul s_sub s_opp (@eq R)).

Lemma sum_upto_zero (n : nat) : sum_upto n (fun _ => s_zero) = s_zero.
Proof.
  induction n as [|n IH]; [reflexivity|].
  rewrite sum_upto_S, IH. ring.
Qed.

Lemma sum_upto_add (n : nat) (f g : nat -> R) :
  sum_upto n (fun k => s_add (f k) (g k))
  = s_add (sum_upto n f) (sum_upto n g).
Proof.
  induction n as [|n IH]; [cbn; ring|].
  rewrite !sum_upto_S, IH. ring.
Qed.

Lemma sum_upto_scale_r (n : nat) (f : nat -> R) (a : R) :
  sum_upto n (fun k => s_mul (f k) a) = s_mul (sum_upto n f) a.
Proof.
  induction n as [|n IH]; [cbn; ring|].
  rewrite !sum_upto_S, IH. ring.
Qed.

Lemma sum_upto_scale_l (n : nat) (f : nat -> R) (a : R) :
  sum_upto n (fun k => s_mul a (f k)) = s_mul a (sum_upto n f).
Proof.
  induction n as [|n IH]; [cbn; ring|].
  rewrite !sum_upto_S, IH. ring.
Qed.

Lemma sum_upto_delta_out (n x : nat) (u : R) :
  n <= x -> sum_upto n (fun c => if x =? c then u else s_zero) = s_zero.
Proof.
  intros Hx.
  transitivity (sum_upto n (fun _ : nat => s_zero)); [|apply sum_upto_zero].
  apply sum_upto_ext.
  intros k Hk. destruct (Nat.eqb_spec x k); [lia | reflexivity].
Qed.

Lemma sum_upto_delta (n x : nat) (u : R) :
  x < n -> sum_upto n (fun c => if x =? c then u else s_zero) = u.
Proof.
  induction n as [|n IH]; intros Hx; [lia|].
  rewrite sum_upto_S.
  destruct (Nat.eqb_spec x n) as [->|Hne].
  - rewrite sum_upto_delta_out by lia. ring.
  - rewrite IH by lia. ring.
Qed.

Lemma sum_upto_swap (n m : nat) (f : nat -> nat -> R) :
  sum_upto n (fun i => sum_upto m (fun j => f i j))
  = sum_upto m (fun j => sum_upto n (fun i => f i j)).
Proof.
  induction n as [|n IH].
  - cbn. symmetry. apply sum_upto_zero.
  - rewrite sum_upto_S, IH, <- sum_upto_add.
    apply sum_upto_ext; intros j _. rewrite sum_upto_S. reflexivity.
Qed.

(** The four-fold product with a diagonal matrix in the middle. *)
Lemma gram_form (n : nat) (q Pj : nat -> R) (M D : nat -> nat -> R) :
  (forall m l, m <> l -> M m l = s_zero) ->
  sum_upto n
    (fun k =>
       s_mul (sum_upto n
                (fun l => s_mul (sum_upto n (fun m => s_mul (q m) (M m l)))
                                (D l k)))
             (Pj k))
  = sum_upto n
      (fun l => s_mul (s_mul (q l) (M l l))
                      (sum_upto n (fun k => s_mul (D l k) (Pj k)))).
Proof.
  intros Hdiag.
  assert (Hin : forall l, l < n ->
            sum_upto n (fun m => s_mul (q m) (M m l)) = s_mul (q l) (M l l)).
  { intros l Hl.
    transitivity
      (sum_upto n (fun m => if l =? m then s_mul (q l) (M l l) else s_zero));
      [|apply sum_upto_delta; exact Hl].
    apply sum_upto_ext; intros m _.
    destruct (Nat.eqb_spec l m) as [->|Hne]; [reflexivity|].
    rewrite (Hdiag m l) by auto. ring. }
  transitivity
    (sum_upto n
       (fun k => sum_upto n
          (fun l => s_mul (s_mul (q l) (M l l)) (s_mul (D l k) (Pj k))))).
  - apply sum_upto_ext; intros k _.
    rewrite <- sum_upto_scale_r.
    apply sum_upto_ext; intros l Hl. rewrite (Hin l Hl). ring.
  - rewrite sum_upto_swap.
    apply sum_upto_ext; intros l _.
    apply sum_upto_scale_l.
Qed.

End Exact.

(** The coefficients of the two matrices, from the state the loop ends in. *)
Lemma M1_off_diagonal {R : Type} {SR : Scalar R}
      (inp : Input R) (st : Builder R) (r c : nat) :
  build inp = Ok st -> r <> c -> triplet_sum (M1Triplets st) r c = s_zero.
Proof.
  intros Hst Hrc.
  destruct (build_lists _ Hst) as (_ & EM1 & _). rewrite EM1.
  unfold triplet_sum. apply triplet_fold_skip.
  intros t Ht. apply in_map_iff in Ht; destruct Ht as ([[i j] k] & <- & _).
  cbn [M1_entry t_row t_col].
  destruct (Nat.eq_dec (row_index (branches inp) i j k) r) as [<-|Hne];
    [right; exact Hrc | left; exact Hne].
Qed.

Lemma d0_row_coeff {R : Type} {SR : Scalar R}
      (inp : Input R) (st : Builder R) (i j k c : nat) :
  build inp = Ok st ->
  i < rows (wholeF inp) -> j < 3 -> k < branches inp ->
  triplet_sum (d0Triplets st) (row_index (branches inp) i j k) c
  = let a := if row_index (branches inp) i j k =? c
             then s_add s_zero (s_opp s_one) else s_zero in
    if plus_col (branches inp) i j k =? c then s_add a s_one else a.
Proof.
  intros Hst Hi Hj Hk.
  destruct (build_lists _ Hst) as (Ed0 & _ & _). rewrite Ed0.
  change (row_index (branches inp) i j k)
    with (row_of (branches inp) (i, j, k)).
  rewrite (triplet_sum_block (d0_pair (branches inp)) (row_of (branches inp))).
  - unfold triplet_sum; cbn [fold_left d0_pair t_row t_col t_value row_of].
    rewrite Nat.eqb_refl; cbn [andb]. reflexivity.
  - intros [[i' j'] k'] t [<- | [<- | []]]; reflexivity.
  - apply corners_NoDup.
  - apply in_corners; auto.
Qed.

Section ExactProperties.
Context {R : Type} {SR : Scalar R}.
Hypothesis exact : exact_arithmetic SR.

Add Ring scalar_ring' : (exact : ring_theory s_zero s_one s_add s_mul s_sub s_opp (@eq R)).

(** X11.  In exact arithmetic the three targets of a face cancel: for every
    face [i] and branch [k], the entries of [gamma] for the corners 0, 1
    and 2 add up to zero, because the three edge vectors of a triangle
    do. *)
Theorem gamma_closes_around_face (inp : Input R) (st : Builder R) (i k : nat) :
  build inp = Ok st ->
  i < rows (wholeF inp) -> k < cols (rawField inp) / 3 ->
  let N := cols (rawField inp) / 3 in
  s_add (s_add (vcoeff (gamma st) (3 * N * i + N * 0 + k))
               (vcoeff (gamma st) (3 * N * i + N * 1 + k)))
        (vcoeff (gamma st) (3 * N * i + N * 2 + k))
  = s_zero.
Proof.
  intros Hst Hi Hk; cbv zeta.
  assert (H0 : 0 < 3) by lia. assert (H1 : 1 < 3) by lia.
  assert (H2 : 2 < 3) by lia.
  pose proof (@build_gamma R SR inp st i 0 k Hst Hi H0 Hk) as G0.
  pose proof (@build_gamma R SR inp st i 1 k Hst Hi H1 Hk) as G1.
  pose proof (@build_gamma R SR inp st i 2 k Hst Hi H2 Hk) as G2.
  unfold row_index, branches in G0, G1, G2.
  rewrite G0, G1, G2. unfold gamma_value.
  change ((0 + 1) mod 3) with 1. change ((1 + 1) mod 3) with 2.
  change ((2 + 1) mod 3) with 0.
  cbv zeta. ring.
Qed.

(** X12.  In exact arithmetic the operator sends every constant vector to
    zero: each of its rows holds [-1] and [+1], whichever column the [+1]
    lands in. *)
Theorem operator_annihilates_constants
        (inp : Input R) (sys : System R) (a : R) :
  assemble inp = Ok sys ->
  exists y,
    mvmul (sys_d0 sys) (mkVector (cols (sys_d0 sys)) (fun _ => a)) = Ok y /\
    size y = 3 * (cols (rawField inp) / 3) * rows (wholeF inp) /\
    forall r, r < size y -> vcoeff y r = s_zero.
Proof.
  intros H.
  destruct (assemble_system_of _ H) as (st & Hst & ->).
  cbn [system_of sys_d0]. unfold mvmul; cbn [rows cols size coeff vcoeff].
  rewrite Nat.eqb_refl; cbn [eigen_assert bind].
  eexists; split; [reflexivity|]. cbn [size vcoeff].
  split; [reflexivity|].
  intros r Hr.
  destruct (@build_gamma_covers R SR inp st r Hst Hr) as (i & j & k & Hi & Hj & Hk & -> & _).
  pose proof (row_index_bound (N := branches inp) Hi Hj Hk) as Hrow.
  pose proof (plus_col_bound (N := branches inp) j Hi Hk) as Hcol.
  transitivity
    (sum_upto (corner_dim inp)
       (fun c => s_add
                   (if row_index (branches inp) i j k =? c
                    then s_opp a else s_zero)
                   (if plus_col (branches inp) i j k =? c
                    then a else s_zero))).
  - apply sum_upto_ext; intros c _.
    rewrite (@d0_row_coeff R SR inp st i j k c Hst Hi Hj Hk); cbv zeta.
    destruct (row_index (branches inp) i j k =? c),
             (plus_col (branches inp) i j k =? c); ring.
  - rewrite (@sum_upto_add R SR exact).
    rewrite !(@sum_upto_delta R SR exact) by assumption.
    ring.
Qed.

(** X13.  In exact arithmetic the energy matrix
    [Pt * Dt * M * D * P] the routine computes is symmetric. *)
Theorem energy_matrix_symmetric (inp : Input R) (sys : System R) (i j : nat) :
  assemble inp = Ok sys ->
  coeff (sys_EtE sys) i j = coeff (sys_EtE sys) j i.
Proof.
  intros H.
  destruct (assemble_shape _ H) as (_ & HP & _).
  destruct (assemble_system_of _ H) as (st & Hst & ->).
  cbn [system_of sys_EtE mprod transpose coeff rows cols].
  rewrite HP.
  set (n := corner_dim inp).
  set (D := triplet_sum (d0Triplets st)).
  set (M := triplet_sum (M1Triplets st)).
  set (P := coeff (vt2cMat inp)).
  assert (Hdiag : forall m l, m <> l -> M m l = s_zero)
    by (intros m l Hml; apply (@M1_off_diagonal R SR inp st m l Hst Hml)).
  set (q := fun x l => sum_upto n (fun a => s_mul (P a x) (D l a))).
  assert (Hq : forall x l,
             sum_upto n (fun k => s_mul (D l k) (P k x)) = q x l).
  { intros x l. apply sum_upto_ext; intros a _. ring. }
  transitivity
    (sum_upto n
       (fun l => s_mul (s_mul (q i l) (M l l))
                       (sum_upto n (fun k => s_mul (D l k) (P k j)))));
    [exact (@gram_form R SR exact n (q i) (fun k => P k j) M D Hdiag)|].
  transitivity
    (sum_upto n
       (fun l => s_mul (s_mul (q j l) (M l l))
                       (sum_upto n (fun k => s_mul (D l k) (P k i)))));
    [|symmetry;
      exact (@gram_form R SR exact n (q j) (fun k => P k i) M D Hdiag)].
  apply sum_upto_ext; intros l _.
  rewrite !Hq. ring.
Qed.

End ExactProperties.

Lemma gamma_closes_around_face_witness :
  exists st,
    build two_faces = Ok st /\
    (vcoeff (gamma st) 3 + vcoeff (gamma st) 4 + vcoeff (gamma st) 5)%Z = 0%Z /\
    vcoeff (gamma st) 3 = (-3)%Z.
Proof.
  destruct (is_ok_exists (build two_faces)) as [st H];
    [vm_compute; reflexivity|].
  exists st; split; [exact H|].
  assert (H1 : 1 < rows (wholeF two_faces)) by (cbn; lia).
  assert (H3 : 0 < cols (rawField two_faces) / 3) by (cbn; lia).
  split.
  - exact (@gamma_closes_around_face Z _ exact_arithmetic_Z two_faces st 1 0
             H H1 H3).
  - evaluate_at H. reflexivity.
Defined.

Lemma operator_annihilates_constants_witness :
  exists sys y,
    assemble two_branch_triangle = Ok sys /\
    mvmul (sys_d0 sys) (mkVector (cols (sys_d0 sys)) (fun _ => 7%Z)) = Ok y /\
    size y = 6 /\
    forall r, r < size y -> vcoeff y r = 0%Z.
Proof.
  destruct (is_ok_exists (assemble two_branch_triangle)) as [sys H];
    [vm_compute; reflexivity|].
  destruct (@operator_annihilates_constants Z _ exact_arithmetic_Z
              two_branch_triangle sys 7%Z H) as (y & Hy & Hs & Hz).
  exists sys, y. split; [exact H|]. split; [exact Hy|].
  split; [exact Hs | exact Hz].
Defined.

Lemma energy_matrix_symmetric_witness :
  exists sys,
    assemble two_faces = Ok sys /\
    coeff (sys_EtE sys) 3 4 = coeff (sys_EtE sys) 4 3 /\
    coeff (sys_EtE sys) 4 3 = (-2)%Z.
Proof.
  destruct (is_ok_exists (assemble two_faces)) as [sys H];
    [vm_compute; reflexivity|].
  exists sys; split; [exact H|]. split.
  - exact (@energy_matrix_symmetric Z _ exact_arithmetic_Z two_faces sys 3 4 H).
  - evaluate_at H. reflexivity.
Defined.
